(** * Pi-Patrol: a shallow embedding of the capture / recognition /
      distribution pipeline ([pi_patrol.py], [web_server.py], [dashboard.py])

    The Python code is embedded as Rocq functions.  Calls into OpenCV, the
    camera driver, the clock and the file system are inputs of the model:
    each function takes a record of the outcomes of the external calls it
    makes, an outcome being a returned value or a raised exception.  Module
    globals and object attributes are threaded explicitly as state. *)

From Stdlib Require Import ZArith QArith Qround Qpower Qabs Ascii String Sorted Lqa.
From stdpp Require Import base numbers option gmap strings list fin_maps pretty sorting.

Local Open Scope string_scope.
Local Open Scope list_scope.
Local Open Scope Z_scope.

(** ** Python values and exceptions *)

Module Py.

(** An exception deriving from [Exception], with its message.  These are
    the exceptions an [except Exception] clause catches. *)
Inductive exc := Exception (msg : string).

(** The outcome of a call: a returned value or a raised exception. *)
Inductive res (A : Type) :=
| Ret (a : A)
| Raise (e : exc).
Arguments Ret {A} a.
Arguments Raise {A} e.

Definition bind {A B} (r : res A) (k : A -> res B) : res B :=
  match r with
  | Ret a => k a
  | Raise e => Raise e
  end.

(** [try: body / except Exception: handler] *)
Definition try_except {A} (body : res A) (handler : exc -> res A) : res A :=
  match body with
  | Ret a => Ret a
  | Raise e => handler e
  end.

Definition raises {A} (r : res A) : Prop :=
  match r with
  | Ret _ => False
  | Raise _ => True
  end.

Definition returns {A} (r : res A) : Prop :=
  match r with
  | Ret _ => True
  | Raise _ => False
  end.

(** Python floats are modelled by rationals (every finite double is one);
    [x < y] on floats is then the comparison of rationals. *)
Definition float := Q.

Definition float_lt (x y : float) : bool := negb (Qle_bool y x).

(** Float arithmetic gives the double nearest to the exact result (IEEE
    754 binary64, round to nearest, ties to even).  [ilog2 q] is the
    exponent of the binade of a positive [q]: [2 ^ ilog2 q <= q <
    2 ^ (ilog2 q + 1)]. *)
Definition ilog2 (q : Q) : Z :=
  let k := Z.log2 (Qnum q) - Z.log2 (Z.pos (Qden q)) in
  if Qle_bool (2 ^ k) q then k else k - 1.

(** The integer nearest to [q], the even one of two at the same
    distance. *)
Definition rne (q : Q) : Z :=
  let f := Qfloor q in
  match (q - inject_Z f ?= 1 # 2)%Q with
  | Lt => f
  | Gt => f + 1
  | Eq => if Z.even f then f else f + 1
  end.

(** The double nearest to [q]: a multiple of [2 ^ (e - 52)] in the binade
    of exponent [e], of [2 ^ -1074] below the normal range.  Results
    beyond the largest double (about 1.8e308, where Python gives [inf] or
    raises OverflowError) are outside the model. *)
Definition round_double (q : Q) : float :=
  if Qeq_bool q 0 then 0%Q
  else
    let s := Z.min (52 - ilog2 (Qabs q)) 1074 in
    Qred (inject_Z (rne (q * 2 ^ s)) / 2 ^ s).

(** [x - y] and [x / y] (for [y] other than zero) on floats. *)
Definition float_sub (x y : float) : float := round_double (x - y).

Definition float_div (x y : float) : float := round_double (x / y).

Arguments round_double : simpl never.
Arguments float_sub : simpl never.
Arguments float_div : simpl never.

End Py.

Import Py.

Notation "'let!' x ':=' r 'in' k" := (Py.bind r (fun x => k))
  (at level 10, x pattern, r at level 100, k at level 200).

(** ** Configuration ([class Config]) *)

Module Config.
Definition CAMERA_WIDTH : nat := 640%nat.
Definition CAMERA_HEIGHT : nat := 480%nat.
Definition VIDEO_DURATION : float := 5%Q.
Definition FACE_SIZE : nat * nat := (200%nat, 200%nat).
Definition CONFIDENCE_THRESHOLD : float := 70%Q.
Definition IDLE_TIMEOUT : float := 10%Q.
End Config.

(** ** Images *)

(** A numpy array of shape (rows, columns): a list of rows. *)
Definition matrix (A : Type) := list (list A).

(** A colour frame holds one (B, G, R) triple per pixel, a grayscale image
    one intensity per pixel. *)
Definition Frame := matrix (Z * Z * Z).
Definition Gray := matrix Z.

(** A rectangle (x, y, w, h) as returned by [detectMultiScale]; the
    coordinates of a detection are never negative. *)
Definition Box : Type := nat * nat * nat * nat.

(** numpy slicing [m[y:y+h, x:x+w]]: rows [y .. y+h-1], and of each row the
    columns [x .. x+w-1]; a slice that runs past the end is cut short. *)
Definition slice {A} (lo hi : nat) (l : list A) : list A :=
  take (hi - lo) (drop lo l).

Definition crop {A} (m : matrix A) (b : Box) : matrix A :=
  let '(x, y, w, h) := b in
  map (slice x (x + w)) (slice y (y + h) m).

(** ** The face recogniser ([class LBPHRecognizer]) *)

Module LBPHRecognizer.

(** The OpenCV calls the recogniser makes.  [cvtColor] is
    [cv2.cvtColor(_, cv2.COLOR_BGR2GRAY)], [clahe_apply] is
    [cv2.createCLAHE(clipLimit=2.0, tileGridSize=(8, 8)).apply],
    [detectMultiScale] the Haar cascade with the parameters of the source,
    [resize] is [cv2.resize], and [predict] is the trained LBPH model's
    [predict], which returns a label id and a distance. *)
Record CvOps := {
  cvtColor : Frame -> res Gray;
  clahe_apply : Gray -> res Gray;
  detectMultiScale : Gray -> res (list Box);
  resize : Gray -> nat * nat -> res Gray;
  predict : Gray -> res (Z * float)
}.

(** A detection: (name, conf, (x, y, w, h)). *)
Definition Detection : Type := string * float * Box.

Definition det_name (d : Detection) : string := d.1.1.
Definition det_conf (d : Detection) : float := d.1.2.
Definition det_box (d : Detection) : Box := d.2.

(** [preprocess_face]: grayscale, CLAHE, resize to [Config.FACE_SIZE]. *)
Definition preprocess_face (cv : CvOps) (img : Frame) : res Gray :=
  let! gray := cvtColor cv img in
  let! gray := clahe_apply cv gray in
  resize cv gray Config.FACE_SIZE.

(** The [try] block of [recognize_faces] with its [except Exception]
    handler, for one resized region. *)
Definition classify (cv : CvOps) (labels : gmap Z string) (roi : Gray)
  : string * float :=
  match predict cv roi with
  | Ret (label_id, conf) =>
      if float_lt conf Config.CONFIDENCE_THRESHOLD
      then (default "Unknown" (labels !! label_id), conf)
      else ("Unknown", conf)
  | Raise _ => ("Unknown", 100%Q)
  end.

(** The region handed to [predict] for the rectangle [b]: cut from the
    equalised grayscale frame, then resized. *)
Definition roi_of (cv : CvOps) (gray : Gray) (b : Box) : res Gray :=
  resize cv (crop gray b) Config.FACE_SIZE.

(** The [for (x, y, w, h) in faces] loop, [results] being the list built
    so far. *)
Fixpoint recognize_loop (cv : CvOps) (labels : gmap Z string) (gray : Gray)
    (faces : list Box) (results : list Detection) : res (list Detection) :=
  match faces with
  | [] => Ret results
  | b :: rest =>
      let! roi := roi_of cv gray b in
      let '(name, conf) := classify cv labels roi in
      recognize_loop cv labels gray rest (results ++ [(name, conf, b)])
  end.

(** The equalised grayscale frame the cascade runs on. *)
Definition equalised (cv : CvOps) (frame : Frame) : res Gray :=
  let! gray := cvtColor cv frame in
  clahe_apply cv gray.

Definition recognize_faces (cv : CvOps) (labels : gmap Z string)
    (frame : Frame) : res (list Detection) :=
  let! gray := equalised cv frame in
  let! faces := detectMultiScale cv gray in
  recognize_loop cv labels gray faces [].

(** What [recognize_faces] reports for the rectangle [b] of the equalised
    frame [gray]: the outcome of the [try] block on the resized region. *)
Definition reported (cv : CvOps) (labels : gmap Z string) (gray : Gray)
    (b : Box) (d : Detection) : Prop :=
  exists roi, roi_of cv gray b = Ret roi /\ d = (classify cv labels roi, b).

(** *** The corpus directory and the label mapping *)

(** One entry of [faces_dir.iterdir()]: its name, whether it is a
    directory, and for a directory what [cv2.imread] returns for each of
    its [*.jpg] files ([None] when the file cannot be decoded). *)
Record DirEntry := {
  entry_name : string;
  is_dir : bool;
  jpgs : list (option Frame)
}.

(** Python's [enumerate]. *)
Fixpoint enumerate_from {A} (i : Z) (l : list A) : list (Z * A) :=
  match l with
  | [] => []
  | a :: l' => (i, a) :: enumerate_from (i + 1) l'
  end.

Definition enumerate {A} (l : list A) : list (Z * A) := enumerate_from 0 l.

(** One step of the dict comprehension of [_load_labels]: the pair
    [(i, folder)] adds the item [i: folder.name] if [folder.is_dir()]. *)
Definition load_step (d : gmap Z string) (p : Z * DirEntry)
  : gmap Z string :=
  let '(i, folder) := p in
  if is_dir folder then <[i := entry_name folder]> d else d.

(** [_load_labels]: the dict comprehension
    [{i: folder.name for i, folder in enumerate(iterdir()) if folder.is_dir()}]. *)
Definition _load_labels (listing : list DirEntry) : gmap Z string :=
  foldl load_step ∅ (enumerate listing).

(** The inner loop of [train] over the images of one person. *)
Fixpoint train_images (cv : CvOps) (imgs : list (option Frame)) (label_id : Z)
    (faces : list Gray) (labels : list Z) : res (list Gray * list Z) :=
  match imgs with
  | [] => Ret (faces, labels)
  | None :: rest => train_images cv rest label_id faces labels
  | Some img :: rest =>
      let! face := preprocess_face cv img in
      train_images cv rest label_id (faces ++ [face]) (labels ++ [label_id])
  end.

(** The outer loop of [train].  [self.labels] is updated in place, so the
    mapping built so far is returned also when an image raises. *)
Fixpoint train_loop (cv : CvOps) (listing : list DirEntry) (label_id : Z)
    (self_labels : gmap Z string) (faces : list Gray) (labels : list Z)
  : gmap Z string * res (list Gray * list Z) :=
  match listing with
  | [] => (self_labels, Ret (faces, labels))
  | person_folder :: rest =>
      if negb (is_dir person_folder) then
        train_loop cv rest label_id self_labels faces labels
      else
        let self_labels := <[label_id := entry_name person_folder]> self_labels in
        match train_images cv (jpgs person_folder) label_id faces labels with
        | Ret (faces, labels) =>
            train_loop cv rest (label_id + 1) self_labels faces labels
        | Raise e => (self_labels, Raise e)
        end
  end.

(** [train]: [self.labels] after the call, and the samples and label array
    the classifier is fitted on and saved for; [None] when no sample was
    found, in which case nothing is fitted or saved.  An exception raised
    while reading the samples ends the call. *)
Definition train (cv : CvOps) (listing : list DirEntry)
  : gmap Z string * res (option (list Gray * list Z)) :=
  let '(self_labels, r) := train_loop cv listing 0 ∅ [] [] in
  (self_labels,
   let! samples := r in
   match samples.1 with
   | [] => Ret None
   | _ :: _ => Ret (Some samples)
   end).

(** [self.model_path.exists()] for [model_path = faces_dir / "model.yml"]:
    the corpus directory has an entry of that name. *)
Definition MODEL_NAME : string := "model.yml".

Definition model_exists (listing : list DirEntry) : bool :=
  existsb (fun entry => String.eqb (entry_name entry) MODEL_NAME) listing.

(** The method [_init_(self, faces_dir)], [listing] being the entries of
    [faces_dir]: with a saved model file the model is read and the labels
    are rebuilt from the folder names; without one the recogniser is
    trained.  [read_model] is the outcome of [recognizer.read].  Returns
    [self.labels] and how the call ends.  The name has single
    underscores, so this is a method to be called on an object and not
    the constructor of the class. *)
Definition _init_ (cv : CvOps) (read_model : res unit)
    (listing : list DirEntry) : gmap Z string * res unit :=
  if model_exists listing then
    match read_model with
    | Raise e => (∅, Raise e)
    | Ret _ => (_load_labels listing, Ret tt)
    end
  else
    let '(self_labels, r) := train cv listing in
    (self_labels, let! _ := r in Ret tt).

End LBPHRecognizer.

(** ** The web server ([web_server.py]) *)

Module WebServer.

(** Python [bytes]. *)
Definition bytes := string.

Definition CRLF : bytes := String "013"%char (String "010"%char EmptyString).

(** The module globals. *)
Record Globals := {
  current_frame : option Frame;
  encoded_jpeg : option bytes;
  current_label : string;
  live_preview_enabled : bool;
  last_frame_time : float
}.

Definition initial : Globals := {|
  current_frame := None;
  encoded_jpeg := None;
  current_label := "Unknown";
  live_preview_enabled := false;
  last_frame_time := 0%Q
|}.

Definition stream_fps : float := 15%Q.

(** The external calls of one [set_frame]. *)
Record SetFrameEnv := {
  imencode : Frame -> res (bool * bytes);
  time_time : float;
  imwrite_LIVE_PATH : Frame -> res bool
}.

Definition set_frame_default_label : string := "Unknown".

(** [set_frame(frame, label="Unknown")]; [label] is [None] when the caller
    leaves the argument out.  The globals assigned before an exception
    keep their new values. *)
Definition set_frame (env : SetFrameEnv) (frame : Frame)
    (label : option string) (g : Globals) : Globals * res unit :=
  let label := default set_frame_default_label label in
  let g := {| current_frame := Some frame;
              encoded_jpeg := encoded_jpeg g;
              current_label := label;
              live_preview_enabled := live_preview_enabled g;
              last_frame_time := last_frame_time g |} in
  match imencode env frame with
  | Raise e => (g, Raise e)
  | Ret (ret, buf) =>
      if ret then
        let g := {| current_frame := current_frame g;
                    encoded_jpeg := Some buf;
                    current_label := current_label g;
                    live_preview_enabled := live_preview_enabled g;
                    last_frame_time := time_time env |} in
        (g, let! _ := imwrite_LIVE_PATH env frame in Ret tt)
      else (g, Ret tt)
  end.

(** *** The MJPEG generator *)

(** [frame_interval = 1 / stream_fps]: the double nearest to 1/15,
    which is 4803839602528529 / 2^56, a little below 1/15. *)
Definition frame_interval : float := Eval vm_compute in float_div 1%Q stream_fps.

Definition chunk (frame : bytes) : bytes :=
  ("--frame" +:+ CRLF +:+ "Content-Type: image/jpeg" +:+ CRLF +:+ CRLF)
    +:+ frame +:+ CRLF.

(** Truth value of [frame] in [if frame:]: [None] and [b""] are false. *)
Definition truthy_bytes (frame : option bytes) : bool :=
  match frame with
  | None | Some EmptyString => false
  | Some _ => true
  end.

(** What one iteration of the [while True] loop of [generate_stream] does:
    it yields a chunk or sleeps, [seconds] being the argument of
    [time.sleep] as the source writes it. *)
Inductive StreamStep :=
| Yield (data : bytes)
| Sleep (seconds : float).

(** One iteration, reading the globals [g] and the clock [now];
    returns the step and the new [last_sent_time].  The test
    [now - last_sent_time < frame_interval] is on the float difference. *)
Definition stream_iteration (g : Globals) (now : float)
    (last_sent_time : float) : StreamStep * float :=
  if negb (live_preview_enabled g) then (Sleep (2 # 10), last_sent_time)
  else if float_lt (float_sub now last_sent_time) frame_interval
  then (Sleep (1 # 100), last_sent_time)
  else
    let frame := encoded_jpeg g in
    if truthy_bytes frame
    then (Yield (chunk (default EmptyString frame)), now)
    else (Sleep (5 # 100), last_sent_time).

(** The chunks [generate_stream] yields over successive iterations, the
    [i]-th iteration reading the globals and the clock given by the
    [i]-th element of [reads]. *)
Fixpoint stream_from (last_sent_time : float)
    (reads : list (Globals * float)) : list bytes :=
  match reads with
  | [] => []
  | (g, now) :: rest =>
      match stream_iteration g now last_sent_time with
      | (Yield data, last) => data :: stream_from last rest
      | (Sleep _, last) => stream_from last rest
      end
  end.

Definition generate_stream (reads : list (Globals * float)) : list bytes :=
  stream_from 0%Q reads.

(** *** JSON values and requests *)

#[local] Unset Elimination Schemes.
Inductive json :=
| JNull
| JBool (b : bool)
| JNumber (q : Q)
| JString (s : string)
| JArray (l : list json)
| JObject (l : list (string * json)).
#[local] Set Elimination Schemes.

(** Python's [bool(v)] on a decoded JSON value. *)
Definition py_bool (v : json) : bool :=
  match v with
  | JNull => false
  | JBool b => b
  | JNumber q => negb (Qeq_bool q 0)
  | JString s => negb (String.eqb s EmptyString)
  | JArray l => negb (bool_decide (l = []))
  | JObject l => match l with [] => false | _ => true end
  end.

(** [toggle_preview]: [data] is the decoded JSON object of the request;
    returns the new globals and the [live_preview] field of the reply. *)
Definition toggle_preview (data : gmap string json) (g : Globals)
  : Globals * bool :=
  let enabled := py_bool (default (JBool false) (data !! "enable")) in
  ({| current_frame := current_frame g;
      encoded_jpeg := encoded_jpeg g;
      current_label := current_label g;
      live_preview_enabled := enabled;
      last_frame_time := last_frame_time g |}, enabled).

(** [status]: the (current_label, live_preview, last_frame_time) reply. *)
Definition status (g : Globals) : string * bool * float :=
  (current_label g, live_preview_enabled g, last_frame_time g).

(** *** The server as seen by one [/live] client *)

(** What happens to the globals while a client is connected: the capture
    path publishes a frame, a request toggles the preview, or the
    generator of the client runs one iteration of its loop at clock
    [now]. *)
Inductive Action :=
| Publish (env : SetFrameEnv) (frame : Frame) (label : option string)
| Toggle (data : gmap string json)
| Iterate (now : float).

Definition is_toggle (a : Action) : bool :=
  match a with
  | Toggle _ => true
  | _ => false
  end.

(** The chunks the client receives over a series of actions. *)
Fixpoint serve (actions : list Action) (g : Globals)
    (last_sent_time : float) : list bytes :=
  match actions with
  | [] => []
  | Publish env frame label :: rest =>
      serve rest (set_frame env frame label g).1 last_sent_time
  | Toggle data :: rest =>
      serve rest (toggle_preview data g).1 last_sent_time
  | Iterate now :: rest =>
      match stream_iteration g now last_sent_time with
      | (Yield data, last) => data :: serve rest g last
      | (Sleep _, last) => serve rest g last
      end
  end.

(** *** Paths *)

(** A file is named by the directories that lead to it from the root,
    followed by its own name. *)
Definition Path := list string.

(** [FACES_DIR = Path("/home/pi/Security/pi_patrol") / "faces"] *)
Definition FACES_DIR : Path := ["home"; "pi"; "Security"; "pi_patrol"; "faces"].

Fixpoint has_slash (s : string) : bool :=
  match s with
  | EmptyString => false
  | String c rest => Ascii.eqb c "/" || has_slash rest
  end.

(** The pieces of a string between its slashes. *)
Fixpoint split_slash (s : string) : list string :=
  match s with
  | EmptyString => [EmptyString]
  | String c rest =>
      if Ascii.eqb c "/" then EmptyString :: split_slash rest
      else
        match split_slash rest with
        | piece :: pieces => String c piece :: pieces
        | [] => [String c EmptyString]
        end
  end.

(** The parts pathlib keeps of a path string: empty pieces and "." are
    dropped, ".." is kept. *)
Definition is_part (piece : string) : bool :=
  negb (String.eqb piece EmptyString) && negb (String.eqb piece ".").

Definition path_parts (s : string) : list string :=
  List.filter is_part (split_slash s).

Definition is_absolute (s : string) : bool :=
  match s with
  | String c _ => Ascii.eqb c "/"
  | EmptyString => false
  end.

(** [base / s] with a string [s]: an absolute [s] replaces [base]. *)
Definition joinpath (base : Path) (s : string) : list string :=
  if is_absolute s then path_parts s else base ++ path_parts s.

(** The file the operating system reaches by the parts of an absolute
    path: ".." leads to the parent directory (the root is its own
    parent).  [above] holds the directories passed so far, the innermost
    first.  Symbolic links are outside the model. *)
Fixpoint resolve (above : list string) (parts : list string) : Path :=
  match parts with
  | [] => rev above
  | part :: rest =>
      if String.eqb part ".." then resolve (tail above) rest
      else resolve (part :: above) rest
  end.

(** The file that [str(FACES_DIR / filename)] names. *)
Definition face_path (filename : string) : Path :=
  resolve [] (joinpath FACES_DIR filename).

(** *** Enrolment *)

(** The image files [enroll_face] can write, those of the corpus
    directory [FACES_DIR] among them: whether that directory exists, and
    the image stored in each file, keyed by the path of the file. *)
Record Corpus := {
  faces_dir_exists : bool;
  faces_files : gmap Path Frame
}.

(** The external calls of one [enroll_face]: [FACES_DIR.mkdir],
    [LIVE_PATH.exists()], [cv2.imread(str(LIVE_PATH))] (which returns
    [None] for a file it cannot decode), the result of
    [datetime.now().strftime('%Y%m%d%H%M%S')], and whether
    [cv2.imwrite] reports success. *)
Record EnrollEnv := {
  mkdir_FACES_DIR : res unit;
  LIVE_PATH_exists : bool;
  imread_LIVE_PATH : res (option Frame);
  strftime_now : string;
  imwrite_face : string -> Frame -> res bool
}.

(** The JSON body of an enrolment reply. *)
Inductive EnrollBody :=
| error (msg : string)
| success (filename : string).

(** A reply: body and HTTP status. *)
Definition Response : Type := EnrollBody * nat.

Definition mkdir_effect (c : Corpus) : Corpus :=
  {| faces_dir_exists := true; faces_files := faces_files c |}.

(** A successful [cv2.imwrite(str(FACES_DIR / filename), frame)]: the
    file the path names holds [frame], be it new or already there. *)
Definition write_face (filename : string) (frame : Frame) (c : Corpus)
  : Corpus :=
  {| faces_dir_exists := faces_dir_exists c;
     faces_files := <[face_path filename := frame]> (faces_files c) |}.

(** The frame [enroll_face] ends up with in [frame_to_save]: a copy of
    the current frame, and without one what [cv2.imread] makes of the
    live snapshot, if that file exists. *)
Definition frame_source (env : EnrollEnv) (g : Globals)
  : res (option Frame) :=
  match current_frame g with
  | Some f => Ret (Some f)
  | None => if LIVE_PATH_exists env then imread_LIVE_PATH env else Ret None
  end.

(** [enroll_face]: [name] is [request.form.get("name")].  An exception
    that leaves the handler is answered by the framework; here it is the
    [Raise] outcome. *)
Definition enroll_face (env : EnrollEnv) (name : option string)
    (g : Globals) (c : Corpus) : Corpus * res Response :=
  match name with
  | None | Some EmptyString => (c, Ret (error "Missing name", 400%nat))
  | Some name =>
      match mkdir_FACES_DIR env with
      | Raise e => (c, Raise e)
      | Ret _ =>
          let c := mkdir_effect c in
          match frame_source env g with
          | Raise e => (c, Raise e)
          | Ret None => (c, Ret (error "No live frame available", 500%nat))
          | Ret (Some frame_to_save) =>
              let filename := name +:+ strftime_now env +:+ ".jpg" in
              match imwrite_face env filename frame_to_save with
              | Raise e => (c, Raise e)
              | Ret false => (c, Ret (error "cv2.imwrite failed", 500%nat))
              | Ret true =>
                  (write_face filename frame_to_save c,
                   Ret (success filename, 200%nat))
              end
          end
      end
  end.

End WebServer.

(** ** The event store ([patrol.db]) *)

Module Database.

(** A row of the [events] table. *)
Record Event := {
  id : Z;
  timestamp : string;
  event_type : string;
  file_path : option string;
  person_name : option string
}.

(** The table, rows in the order they were inserted, and the [seq] that
    SQLite keeps in [sqlite_sequence] for an [AUTOINCREMENT] key: the
    largest rowid the table has ever held. *)
Record Table := {
  rows : list Event;
  seq : Z
}.

(** [init_database] on a new file: [CREATE TABLE IF NOT EXISTS events]. *)
Definition empty : Table := {| rows := []; seq := 0 |}.

(** [init_database]: an existing table is left as it is. *)
Definition init_database (db : option Table) : Table := default empty db.

(** The largest rowid a table can hold. *)
Definition MAX_ROWID : Z := 2 ^ 63 - 1.

(** The largest id among rows, 0 when there are none. *)
Definition max_id (l : list Event) : Z :=
  foldr (fun e m => Z.max (id e) m) 0 l.

Definition max_rowid (t : Table) : Z := max_id (rows t).

(** The largest rowid that ever existed in the table. *)
Definition high (t : Table) : Z := Z.max (seq t) (max_rowid t).

(** The rowid SQLite gives to a row inserted without an id into a table
    whose key is [INTEGER PRIMARY KEY AUTOINCREMENT]: one more than the
    largest rowid that ever existed in the table. *)
Definition next_rowid (t : Table) : Z := high t + 1.

(** [INSERT INTO events (timestamp, event_type, file_path, person_name)
    VALUES (?, ?, ?, ?)]; the statement fails (SQLITE_FULL) once the
    largest rowid has been used. *)
Definition insert (ts ty : string) (path person : option string) (t : Table)
  : res Table :=
  let i := next_rowid t in
  if bool_decide (i <= MAX_ROWID) then
    Ret {| rows := rows t ++ [{| id := i; timestamp := ts; event_type := ty;
                                 file_path := path; person_name := person |}];
           seq := i |}
  else Raise (Exception "database or disk is full").

(** [SELECT * FROM events WHERE id = ?] *)
Definition select_by_id (i : Z) (t : Table) : list Event :=
  filter (fun e => id e = i) (rows t).

(** The ids of the table, in insertion order. *)
Definition ids (t : Table) : list Z := map id (rows t).

(** [t'] holds the rows of [t] followed by rows with larger, fresh ids. *)
Definition extends (t t' : Table) : Prop :=
  exists suffix,
    rows t' = rows t ++ suffix /\
    Forall (fun e => high t < id e) suffix /\
    StronglySorted Z.lt (map id suffix) /\
    high t <= high t'.

End Database.

(** ** The reader of the event store ([dashboard.py]) *)

Module Dashboard.

Import Database.

(** The order of [ORDER BY id DESC]. *)
Definition id_desc (a b : Event) : Prop := id b <= id a.

#[global] Instance id_desc_dec (a b : Event) : Decision (id_desc a b).
Proof. unfold id_desc. apply _. Defined.

(** [get_events]:
    [SELECT id, timestamp, event_type, file_path FROM events
     ORDER BY id DESC LIMIT 50], one (id, timestamp, event_type, file_path)
    entry per row. *)
Definition get_events (t : Table) : list (Z * string * string * option string) :=
  map (fun r => (id r, timestamp r, event_type r, file_path r))
      (take 50 (merge_sort id_desc (rows t))).

End Dashboard.

(** ** The motion loop ([class PiPatrol]) *)

Module PiPatrol.

Import LBPHRecognizer.

(** An open camera device. *)
Inductive Picamera2 := Camera.

(** The attributes of the [PiPatrol] object, with the label mapping of
    its recogniser. *)
Record Self := {
  camera : option Picamera2;
  last_motion_time : float;
  labels : gmap Z string
}.

(** The whole state the loop works on: the object, the globals of the web
    server it publishes to, and the event store. *)
Record State := {
  self : Self;
  web : WebServer.Globals;
  db : Database.Table
}.

Definition set_camera (c : option Picamera2) (st : State) : State :=
  {| self := {| camera := c;
                last_motion_time := last_motion_time (self st);
                labels := labels (self st) |};
     web := web st; db := db st |}.

Definition set_last_motion_time (t : float) (st : State) : State :=
  {| self := {| camera := camera (self st);
                last_motion_time := t;
                labels := labels (self st) |};
     web := web st; db := db st |}.

Definition set_web (g : WebServer.Globals) (st : State) : State :=
  {| self := self st; web := g; db := db st |}.

Definition set_db (t : Database.Table) (st : State) : State :=
  {| self := self st; web := web st; db := t |}.

Definition Colour : Type := Z * Z * Z.

(** The external calls of one [capture_frame]. *)
Record CaptureEnv := {
  capture_array : res Frame;
  cvtColor_RGB2BGR : Frame -> res Frame;
  cv : CvOps;
  rectangle : Frame -> Box -> Colour -> res Frame;
  putText : Frame -> string -> float -> Z * Z -> Colour -> res Frame;
  mkdir_EVENTS_DIR : res unit;
  imwrite_live_path : Frame -> res bool;
  publish : WebServer.SetFrameEnv
}.

(** The annotation loop of [capture_frame]; [rectangle] and [putText]
    draw into the frame. *)
Fixpoint annotate (env : CaptureEnv) (frame : Frame)
    (detections : list Detection) : res Frame :=
  match detections with
  | [] => Ret frame
  | (name, conf, (x, y, w, h)) :: rest =>
      let color : Colour :=
        if bool_decide (name ≠ "Unknown") then (0, 255, 0) else (0, 0, 255) in
      let! frame := rectangle env frame (x, y, w, h) color in
      let! frame := putText env frame name conf
                      (Z.of_nat x, Z.of_nat y - 10) color in
      annotate env frame rest
  end.

(** The [try] block of [capture_frame] up to the call of [set_frame]. *)
Definition grab_and_annotate (env : CaptureEnv) (st : State) : res Frame :=
  let! frame := capture_array env in
  let! frame := cvtColor_RGB2BGR env frame in
  let! detections := recognize_faces (cv env) (labels (self st)) frame in
  let! frame := annotate env frame detections in
  let! _ := mkdir_EVENTS_DIR env in
  let! _ := imwrite_live_path env frame in
  Ret frame.

(** The whole [try] block of [capture_frame]. *)
Definition capture_try (env : CaptureEnv) (st : State) : State * res Frame :=
  match grab_and_annotate env st with
  | Raise e => (st, Raise e)
  | Ret frame =>
      let '(g, r) := WebServer.set_frame (publish env) frame None (web st) in
      (set_web g st, let! _ := r in Ret frame)
  end.

(** [capture_frame]: [None] without a camera; otherwise the [try] block,
    any exception of which is answered with [None]. *)
Definition capture_frame (env : CaptureEnv) (st : State)
  : State * res (option Frame) :=
  match camera (self st) with
  | None => (st, Ret None)
  | Some _ =>
      let '(st, r) := capture_try env st in
      (st, try_except (let! frame := r in Ret (Some frame))
                      (fun e => Ret None))
  end.

(** [initialize_camera]: [open_camera] is the outcome of opening,
    configuring and starting the device. *)
Definition initialize_camera (open_camera : res Picamera2) (st : State)
  : State :=
  match open_camera with
  | Ret cam => set_camera (Some cam) st
  | Raise _ => set_camera None st
  end.

(** [wake_camera] *)
Definition wake_camera (open_camera : res Picamera2) (st : State) : State :=
  match camera (self st) with
  | None => initialize_camera open_camera st
  | Some _ => st
  end.

(** [stop_camera]: [close_camera] is the outcome of [camera.stop()]
    followed by [camera.close()]; its exception is passed over. *)
Definition stop_camera (close_camera : res unit) (st : State) : State :=
  match camera (self st) with
  | Some _ =>
      let _ := try_except close_camera (fun _ => Ret tt) in
      set_camera None st
  | None => st
  end.

(** [check_pir_motion]: without GPIO a random draw, otherwise the pin,
    a failed read counting as no motion. *)
Definition check_pir_motion (gpio : bool) (random_draw : bool)
    (gpio_input_high : res bool) : bool :=
  if negb gpio then random_draw
  else match try_except gpio_input_high (fun _ => Ret false) with
       | Ret b => b
       | Raise _ => false
       end.

(** The external calls of one [log_event]: the formatted current time,
    and the outcomes of [sqlite3.connect] and of [conn.commit()] as far as
    the storage underneath decides them. *)
Record LogEnv := {
  strftime_now : string;
  connect : res unit;
  commit : res unit
}.

(** [log_event]: the insert runs in a transaction ([with ... as conn])
    that is rolled back when anything in it raises; the exception is
    logged and dropped. *)
Definition log_event (env : LogEnv) (event_type : string)
    (file_path person : option string) (t : Database.Table)
  : Database.Table :=
  match (let! _ := connect env in
         let! t' := Database.insert (strftime_now env) event_type
                      file_path person t in
         let! _ := commit env in
         Ret t')
  with
  | Ret t' => t'
  | Raise _ => t
  end.

(** One call of [log_event] with its arguments. *)
Record LogCall := {
  call_env : LogEnv;
  call_event_type : string;
  call_file_path : option string;
  call_person : option string
}.

(** A series of [log_event] calls, from the motion loop and from the
    recording threads, in the order the store serialises them. *)
Definition log_events (calls : list LogCall) (t : Database.Table)
  : Database.Table :=
  foldl (fun t c => log_event (call_env c) (call_event_type c)
                      (call_file_path c) (call_person c) t)
        t calls.

Definition RECORDINGS_DIR : string := "/home/pi/Security/pi_patrol/recordings".

(** [str(RECORDINGS_DIR / filename)] for a file name without directory
    part. *)
Definition recordings_path (filename : string) : string :=
  RECORDINGS_DIR +:+ "/" +:+ filename.

(** The external calls of one [record_clip]. *)
Record ClipEnv := {
  mkdir_RECORDINGS_DIR : res unit;
  start_recording : string -> res unit;
  stop_recording : res unit;
  clip_log : LogEnv
}.

(** [record_clip] up to its call of [log_event]: nothing without a camera;
    otherwise the directory is made (outside the [try]) and the clip is
    recorded inside it.  Returns the path to log, or [None] when there is
    nothing to log. *)
Definition record_clip_path (env : ClipEnv) (filename : string)
    (cam : option Picamera2) : res (option string) :=
  match cam with
  | None => Ret None
  | Some _ =>
      let path := recordings_path filename in
      let! _ := mkdir_RECORDINGS_DIR env in
      try_except
        (let! _ := start_recording env path in
         let! _ := stop_recording env in
         Ret (Some path))
        (fun _ => Ret None)
  end.

(** [record_clip], which runs in a thread of its own, taken as one step on
    the state. *)
Definition record_clip (env : ClipEnv) (filename : string) (st : State)
  : State * res unit :=
  match record_clip_path env filename (camera (self st)) with
  | Raise e => (st, Raise e)
  | Ret None => (st, Ret tt)
  | Ret (Some path) =>
      (set_db (log_event (clip_log env) "motion_recorded" (Some path) None
                 (db st)) st,
       Ret tt)
  end.

End PiPatrol.

(** ** One pass of the [while True] loop of [PiPatrol.run] *)

Module Loop.

Import LBPHRecognizer PiPatrol.

Definition EVENTS_DIR : string := "/home/pi/Security/pi_patrol/events".

(** Python's [int(t)] on a float: truncation towards zero. *)
Definition int_of_float (t : float) : Z := Z.quot (Qnum t) (Z.pos (Qden t)).

(** [str(EVENTS_DIR / name)] for a file name without directory part. *)
Definition events_path (name : string) : string := EVENTS_DIR +:+ "/" +:+ name.

(** The external calls of one pass, in the order the pass makes them. *)
Record TickEnv := {
  gpio : bool;
  random_draw : bool;
  gpio_input_high : res bool;
  time_motion : float;
  open_camera : res Picamera2;
  capture : CaptureEnv;
  cv_run : CvOps;
  time_image : float;
  imwrite_event : string -> Frame -> res bool;
  log : LogEnv;
  thread_start : res unit;
  time_idle : float;
  close_camera : res unit
}.

(** The branch taken when motion is read.  The recording thread that
    [Thread(...).start()] launches runs beside the loop; of it only the
    outcome of starting it appears here. *)
Definition on_motion (env : TickEnv) (st : State) : State * res unit :=
  let st := set_last_motion_time (time_motion env) st in
  let st := wake_camera (open_camera env) st in
  let '(st, r) := capture_frame (capture env) st in
  match r with
  | Raise e => (st, Raise e)
  | Ret None => (st, Ret tt)
  | Ret (Some frame) =>
      match recognize_faces (cv_run env) (labels (self st)) frame with
      | Raise e => (st, Raise e)
      | Ret detections =>
          let person :=
            match detections with
            | d :: _ => det_name d
            | [] => "Unknown"
            end in
          let img_path :=
            events_path (person +:+ "_"
                           +:+ pretty (int_of_float (time_image env))
                           +:+ ".jpg") in
          match imwrite_event env img_path frame with
          | Raise e => (st, Raise e)
          | Ret _ =>
              let st :=
                set_db (log_event (log env) "motion_detected"
                          (Some img_path) (Some person) (db st)) st in
              (st, thread_start env)
          end
      end
  end.

(** The branch taken when no motion is read:
    [if self.camera and (time.time() - self.last_motion_time > IDLE_TIMEOUT)],
    the difference being the float the subtraction gives. *)
Definition on_idle (env : TickEnv) (st : State) : State :=
  match camera (self st) with
  | Some _ =>
      if float_lt Config.IDLE_TIMEOUT
                  (float_sub (time_idle env) (last_motion_time (self st)))
      then stop_camera (close_camera env) st
      else st
  | None => st
  end.

(** [motion = self.check_pir_motion()] *)
Definition motion (env : TickEnv) : bool :=
  check_pir_motion (gpio env) (random_draw env) (gpio_input_high env).

(** One pass of the loop.  The calls of [time.sleep] change nothing in
    the state and are left out. *)
Definition tick (env : TickEnv) (st : State) : State * res unit :=
  if motion env then on_motion env st
  else (on_idle env st, Ret tt).

(** The loop over the passes described by [envs]; an exception that
    leaves a pass ends the loop. *)
Fixpoint run (envs : list TickEnv) (st : State) : State * res unit :=
  match envs with
  | [] => (st, Ret tt)
  | env :: rest =>
      let '(st, r) := tick env st in
      match r with
      | Raise e => (st, Raise e)
      | Ret _ => run rest st
      end
  end.

(** The states after each pass of a run of passes that all return. *)
Fixpoint states (envs : list TickEnv) (st : State) : list State :=
  match envs with
  | [] => []
  | env :: rest => let st' := (tick env st).1 in st' :: states rest st'
  end.

(** A pass powers the camera off when it starts with a camera and ends
    without one. *)
Definition powered_off (before after : State) : bool :=
  bool_decide (is_Some (camera (self before)))
  && bool_decide (camera (self after) = None).

(** The number of times the camera is powered off along [st :: later]. *)
Fixpoint off_transitions (st : State) (later : list State) : nat :=
  match later with
  | [] => 0%nat
  | st' :: rest =>
      ((if powered_off st st' then 1 else 0) + off_transitions st' rest)%nat
  end.

(** [person = detections[0][0] if detections else "Unknown"] *)
Definition first_person (detections : list Detection) : string :=
  match detections with
  | d :: _ => det_name d
  | [] => "Unknown"
  end.

(** [str(EVENTS_DIR / f"{person}_{int(time.time())}.jpg")] *)
Definition snapshot_path (env : TickEnv) (person : string) : string :=
  events_path (person +:+ "_"
                 +:+ pretty (int_of_float (time_image env))
                 +:+ ".jpg").

End Loop.

(** ** Sample inputs *)

Module Samples.

Import LBPHRecognizer.

(** A frame of one row and two pixels, and the rectangle of its first
    pixel. *)
Definition frame12 : Frame := [[(100, 100, 100); (200, 200, 200)]].
Definition box11 : Box := (0%nat, 0%nat, 1%nat, 1%nat).

(** A grayscale conversion that works pixel by pixel. *)
Definition mean_gray (f : Frame) : Gray :=
  map (map (fun p : Z * Z * Z => let '(b, g, r) := p in (b + g + r) / 3)) f.

(** OpenCV stand-ins that find the rectangle [box11] in every frame and
    leave the size of a region as it is; [equalise] and the outcome of
    [predict] are left open. *)
Definition cv_with (equalise : Gray -> Gray) (prediction : res (Z * float))
  : CvOps := {|
  cvtColor f := Ret (mean_gray f);
  clahe_apply g := Ret (equalise g);
  detectMultiScale _ := Ret [box11];
  resize g _ := Ret g;
  predict _ := prediction
|}.

(** A model that answers label id 0 at distance 45. *)
Definition cv_hit : CvOps := cv_with (fun g => g) (Ret (0, 45%Q)).

(** A model whose [predict] raises. *)
Definition cv_broken : CvOps :=
  cv_with (fun g => g) (Raise (Exception "model is not computed yet")).

(** A corpus listing in which a file precedes the person directories,
    each of which holds one image. *)
Definition file (name : string) : DirEntry :=
  {| entry_name := name; is_dir := false; jpgs := [] |}.
Definition folder (name : string) : DirEntry :=
  {| entry_name := name; is_dir := true; jpgs := [Some frame12] |}.
Definition listing_with_model : list DirEntry :=
  [file "model.yml"; folder "alice"; folder "bob"].

(** Outcomes for [set_frame] and [capture_frame] in which every call
    other than the camera read [shot] and the recogniser calls [ops]
    returns. *)
Definition set_frame_env : WebServer.SetFrameEnv := {|
  WebServer.imencode _ := Ret (true, "JPEG");
  WebServer.time_time := 1000%Q;
  WebServer.imwrite_LIVE_PATH _ := Ret true
|}.

Definition capture_env (shot : res Frame) (ops : CvOps)
  : PiPatrol.CaptureEnv := {|
  PiPatrol.capture_array := shot;
  PiPatrol.cvtColor_RGB2BGR f := Ret f;
  PiPatrol.cv := ops;
  PiPatrol.rectangle f _ _ := Ret f;
  PiPatrol.putText f _ _ _ _ := Ret f;
  PiPatrol.mkdir_EVENTS_DIR := Ret tt;
  PiPatrol.imwrite_live_path _ := Ret true;
  PiPatrol.publish := set_frame_env
|}.

(** A state with the given camera and time of last motion, a label
    mapping for "alice", fresh web server globals and an empty store. *)
Definition state (cam : option PiPatrol.Picamera2) (last : float)
  : PiPatrol.State := {|
  PiPatrol.self := {| PiPatrol.camera := cam;
                      PiPatrol.last_motion_time := last;
                      PiPatrol.labels := {[ 0 := "alice" ]} |};
  PiPatrol.web := WebServer.initial;
  PiPatrol.db := Database.empty
|}.

Definition log_env : PiPatrol.LogEnv := {|
  PiPatrol.strftime_now := "2024-01-01 12:00:00";
  PiPatrol.connect := Ret tt;
  PiPatrol.commit := Ret tt
|}.

(** One pass of the loop: [motion] is what the sensor reads, [shot] what
    the camera returns, [now] the clock. *)
Definition tick_env (motion : bool) (shot : res Frame) (now : float)
  : Loop.TickEnv := {|
  Loop.gpio := true;
  Loop.random_draw := false;
  Loop.gpio_input_high := Ret motion;
  Loop.time_motion := now;
  Loop.open_camera := Ret PiPatrol.Camera;
  Loop.capture := capture_env shot cv_hit;
  Loop.cv_run := cv_hit;
  Loop.time_image := now;
  Loop.imwrite_event _ _ := Ret true;
  Loop.log := log_env;
  Loop.thread_start := Ret tt;
  Loop.time_idle := now;
  Loop.close_camera := Ret tt
|}.

(** Outcomes for [enroll_face]: the directory can be made, the live
    snapshot is [live] when it exists, the clock reads 2024-01-01
    12:00:00 and the write succeeds. *)
Definition enroll_env (live : option Frame) : WebServer.EnrollEnv := {|
  WebServer.mkdir_FACES_DIR := Ret tt;
  WebServer.LIVE_PATH_exists := bool_decide (is_Some live);
  WebServer.imread_LIVE_PATH := Ret live;
  WebServer.strftime_now := "20240101120000";
  WebServer.imwrite_face _ _ := Ret true
|}.

Definition no_corpus : WebServer.Corpus := {|
  WebServer.faces_dir_exists := false;
  WebServer.faces_files := ∅
|}.

(** Globals holding [frame] as current frame. *)
Definition globals_with (frame : Frame) : WebServer.Globals :=
  (WebServer.set_frame set_frame_env frame None WebServer.initial).1.

(** A second frame. *)
Definition frame11 : Frame := [[(7, 7, 7)]].

End Samples.

(** ** The gas sensor monitor ([mq_sensor.py]) *)

Module MqSensor.

(** The pin level that means gas. *)
Definition GAS_DETECTED_STATE : bool := false.

(** What one pass of the loop prints. *)
Inductive Output :=
| DIGITAL_ALERT_MESSAGE
| StatusGasDetected (do_value : bool)
| ClearAlert
| StatusCleanAir (do_value : bool).

(** One pass of the [while True] loop on the reading [do_value]: the new
    [is_alerting] and what is printed. *)
Definition step (is_alerting : bool) (do_value : bool) : bool * list Output :=
  if Bool.eqb do_value GAS_DETECTED_STATE then
    if negb is_alerting
    then (true, [DIGITAL_ALERT_MESSAGE; StatusGasDetected do_value])
    else (is_alerting, [StatusGasDetected do_value])
  else
    if is_alerting
    then (false, [ClearAlert; StatusCleanAir do_value])
    else (is_alerting, [StatusCleanAir do_value]).

(** The loop over a series of readings. *)
Fixpoint loop (is_alerting : bool) (readings : list bool)
  : bool * list Output :=
  match readings with
  | [] => (is_alerting, [])
  | do_value :: rest =>
      let '(is_alerting, out) := step is_alerting do_value in
      let '(final, outs) := loop is_alerting rest in
      (final, out ++ outs)
  end.

Definition is_alert (o : Output) : bool :=
  match o with DIGITAL_ALERT_MESSAGE => true | _ => false end.

Definition is_clear (o : Output) : bool :=
  match o with ClearAlert => true | _ => false end.

(** The number of readings that show gas right after a clean reading (or
    at the start, [prev_gas] telling whether gas showed before). *)
Fixpoint gas_onsets (prev_gas : bool) (readings : list bool) : nat :=
  match readings with
  | [] => 0%nat
  | v :: rest =>
      let gas := Bool.eqb v GAS_DETECTED_STATE in
      ((if gas && negb prev_gas then 1 else 0) + gas_onsets gas rest)%nat
  end.

(** How many times the alert message, and the clearing lines, are
    printed. *)
Definition alerts (outs : list Output) : nat :=
  length (List.filter is_alert outs).

Definition clears (outs : list Output) : nat :=
  length (List.filter is_clear outs).

End MqSensor.

(** ** More sample inputs *)

Module MoreSamples.

(** Outcomes for [record_clip] in which every call returns. *)
Definition clip_env : PiPatrol.ClipEnv := {|
  PiPatrol.mkdir_RECORDINGS_DIR := Ret tt;
  PiPatrol.start_recording _ := Ret tt;
  PiPatrol.stop_recording := Ret tt;
  PiPatrol.clip_log := Samples.log_env
|}.

(** Web server globals with the preview enabled. *)
Definition previewing : WebServer.Globals :=
  (WebServer.toggle_preview {[ "enable" := WebServer.JBool true ]}
     WebServer.initial).1.

(** The same after a frame has been published: the encoded frame is
    "JPEG". *)
Definition streaming : WebServer.Globals :=
  (WebServer.set_frame Samples.set_frame_env Samples.frame12 None
     previewing).1.

End MoreSamples.

(** * Properties *)

(** ** Floats *)

Lemma float_lt_true (x y : float) : float_lt x y = true <-> (x < y)%Q.
Proof.
  unfold float_lt. rewrite negb_true_iff.
  split.
  - intros Hb. apply Qnot_le_lt. intros Hle.
    apply Qle_bool_iff in Hle. congruence.
  - intros Hlt. destruct (Qle_bool y x) eqn:Hb; [|reflexivity].
    apply Qle_bool_iff in Hb. exfalso. exact (Qlt_not_le _ _ Hlt Hb).
Qed.

Lemma float_lt_false (x y : float) : float_lt x y = false <-> (y <= x)%Q.
Proof.
  unfold float_lt. rewrite negb_false_iff. apply Qle_bool_iff.
Qed.

(** *** Rounding to a double *)

Lemma two_pow_pos (k : Z) : (0 < 2 ^ k)%Q.
Proof. apply Qpower_0_lt. reflexivity. Qed.

Lemma two_pow_Z (k : Z) : 0 <= k -> (inject_Z (2 ^ k) == 2 ^ k)%Q.
Proof. intros H. rewrite Zpower_Qpower by assumption. reflexivity. Qed.

(** [ilog2] finds the binade of a positive rational. *)
Lemma ilog2_spec (q : Q) :
  (0 < q)%Q -> (2 ^ ilog2 q <= q)%Q /\ (q < 2 ^ (ilog2 q + 1))%Q.
Proof.
  intros Hq. destruct q as [n d].
  assert (Hn : 0 < n) by (unfold Qlt in Hq; simpl in Hq; lia).
  unfold ilog2. cbn [Qnum Qden].
  set (a := Z.log2 n). set (b := Z.log2 (Z.pos d)).
  assert (Ha : 2 ^ a <= n < 2 ^ (a + 1)).
  { pose proof (Z.log2_spec n Hn) as H. unfold a.
    replace (Z.log2 n + 1) with (Z.succ (Z.log2 n)) by lia. lia. }
  assert (Hb : 2 ^ b <= Z.pos d < 2 ^ (b + 1)).
  { pose proof (Z.log2_spec (Z.pos d) eq_refl) as H. unfold b.
    replace (Z.log2 (Z.pos d) + 1) with (Z.succ (Z.log2 (Z.pos d))) by lia.
    lia. }
  assert (Ha0 : 0 <= a) by apply Z.log2_nonneg.
  assert (Hb0 : 0 <= b) by apply Z.log2_nonneg.
  assert (Hlow : (2 ^ (a - b - 1) < n # d)%Q).
  { replace (a - b - 1) with (a - (b + 1)) by lia.
    rewrite Qpower_minus by discriminate.
    rewrite <- !two_pow_Z by lia.
    unfold Qlt, Qdiv, Qmult, Qinv, inject_Z. simpl.
    destruct (2 ^ (b + 1)) eqn:E; try lia. simpl. nia. }
  assert (Hhigh : (n # d < 2 ^ (a - b + 1))%Q).
  { replace (a - b + 1) with (a + 1 - b) by lia.
    rewrite Qpower_minus by discriminate.
    rewrite <- !two_pow_Z by lia.
    unfold Qlt, Qdiv, Qmult, Qinv, inject_Z. simpl.
    destruct (2 ^ b) eqn:E; try lia. simpl. nia. }
  destruct (Qle_bool (2 ^ (a - b)) (n # d)) eqn:E.
  - apply Qle_bool_iff in E. split; assumption.
  - split.
    + apply Qlt_le_weak. exact Hlow.
    + replace (a - b - 1 + 1) with (a - b) by lia.
      apply Qnot_le_lt. intros H. apply Qle_bool_iff in H. congruence.
Qed.

Lemma rne_ge (M : Z) (q : Q) : (inject_Z M <= q)%Q -> M <= rne q.
Proof.
  intros H. assert (M <= Qfloor q).
  { rewrite <- (Qfloor_Z M). apply Qfloor_resp_le. exact H. }
  unfold rne. destruct (_ ?= _)%Q; [destruct (Z.even _)|..]; lia.
Qed.

(** Rounding does not go below a double that the exact value reaches:
    for the normal double [M * 2 ^ (e - 52)] with a 53-bit mantissa [M]. *)
Lemma round_double_ge (M e : Z) (q : Q) :
  2 ^ 52 <= M < 2 ^ 53 -> -1022 <= e ->
  (inject_Z M * 2 ^ (e - 52) <= q)%Q ->
  (inject_Z M * 2 ^ (e - 52) <= round_double q)%Q.
Proof.
  intros HM He Hq.
  set (c := (inject_Z M * 2 ^ (e - 52))%Q) in *.
  assert (Hc1 : (2 ^ e <= c)%Q).
  { unfold c. replace e with (52 + (e - 52)) at 1 by lia.
    rewrite Qpower_plus by discriminate.
    apply Qmult_le_compat_r; [|apply Qlt_le_weak, two_pow_pos].
    rewrite <- two_pow_Z by lia. rewrite <- Zle_Qle. lia. }
  assert (Hc2 : (c < 2 ^ (e + 1))%Q).
  { unfold c. replace (e + 1) with (53 + (e - 52)) by lia.
    rewrite Qpower_plus by discriminate.
    apply Qmult_lt_compat_r; [apply two_pow_pos|].
    rewrite <- two_pow_Z by lia. rewrite <- Zlt_Qlt. lia. }
  assert (Hq0 : (0 < q)%Q).
  { eapply Qlt_le_trans; [|exact Hq].
    eapply Qlt_le_trans; [apply (two_pow_pos e)|exact Hc1]. }
  unfold round_double.
  destruct (Qeq_bool q 0) eqn:E0.
  { apply Qeq_bool_iff in E0. rewrite E0 in Hq0. discriminate. }
  rewrite Qred_correct.
  assert (Habs : Qabs q = q).
  { destruct q as [[|n|n] d]; try reflexivity; discriminate. }
  rewrite Habs.
  destruct (ilog2_spec q Hq0) as [Hl Hh].
  set (k := ilog2 q) in *.
  assert (Hek : e <= k).
  { assert (e < k + 1); [|lia].
    apply (Qpower_lt_compat_l_inv 2); [|reflexivity].
    eapply Qle_lt_trans; [exact Hc1|].
    eapply Qle_lt_trans; [exact Hq|exact Hh]. }
  rewrite Z.min_l by lia.
  set (s := 52 - k).
  apply Qle_shift_div_l; [apply two_pow_pos|].
  destruct (Z.eq_dec k e) as [->|Hne].
  - assert (H : (c * 2 ^ s == inject_Z M)%Q).
    { unfold c, s. rewrite <- Qmult_assoc, <- Qpower_plus by discriminate.
      replace (e - 52 + (52 - e)) with 0 by lia. simpl. ring. }
    rewrite H.
    rewrite <- Zle_Qle. apply rne_ge. rewrite <- H.
    apply Qmult_le_compat_r; [exact Hq|apply Qlt_le_weak, two_pow_pos].
  - assert (H52 : 2 ^ 52 <= rne (q * 2 ^ s)).
    { apply rne_ge. rewrite two_pow_Z by lia.
      replace 52 with (k + s) at 1 by (unfold s; lia).
      rewrite Qpower_plus by discriminate.
      apply Qmult_le_compat_r; [exact Hl|apply Qlt_le_weak, two_pow_pos]. }
    apply Qle_trans with (inject_Z (2 ^ 52)); [|rewrite <- Zle_Qle; exact H52].
    rewrite two_pow_Z by lia.
    replace 52 with (k + s) by (unfold s; lia).
    rewrite Qpower_plus by discriminate.
    apply Qmult_le_compat_r; [|apply Qlt_le_weak, two_pow_pos].
    apply Qle_trans with (2 ^ (e + 1))%Q; [apply Qlt_le_weak; exact Hc2|].
    apply Qpower_le_compat_l; [lia|discriminate].
Qed.

(** The frame interval of the stream is the double 4803839602528529 /
    2^56, and a difference that reaches it still does after rounding. *)
Lemma frame_interval_double :
  (WebServer.frame_interval == inject_Z 4803839602528529 * 2 ^ (-4 - 52))%Q.
Proof. by vm_compute. Qed.

Lemma frame_interval_reached (x y : float) :
  (WebServer.frame_interval <= x - y)%Q ->
  (WebServer.frame_interval <= float_sub x y)%Q.
Proof.
  unfold float_sub, float in *. rewrite !frame_interval_double.
  apply round_double_ge; lia.
Qed.

Lemma bind_Ret {A B} (r : res A) (k : A -> res B) (b : B) :
  Py.bind r k = Ret b -> exists a, r = Ret a /\ k a = Ret b.
Proof. destruct r as [a|e]; simpl; [eauto | discriminate]. Qed.

(** ** The recogniser *)

Section Recognizer.

Import LBPHRecognizer.

Variable cv : CvOps.
Variable labels : gmap Z string.

Lemma recognize_loop_inv gray faces acc results :
  recognize_loop cv labels gray faces acc = Ret results ->
  exists ds, results = acc ++ ds /\ Forall2 (reported cv labels gray) faces ds.
Proof.
  revert acc. induction faces as [|b faces IH]; intros acc H; simpl in H.
  - exists []. split; [|constructor]. rewrite app_nil_r. congruence.
  - apply bind_Ret in H as (roi & Hroi & H).
    destruct (classify cv labels roi) as [name conf] eqn:Hc.
    apply IH in H as (ds & -> & Hds).
    exists ((name, conf, b) :: ds). split.
    + by rewrite <- app_assoc.
    + constructor; [|done]. exists roi. by rewrite Hc.
Qed.

Lemma recognize_loop_total gray faces acc :
  Forall (fun b => returns (roi_of cv gray b)) faces ->
  exists ds, recognize_loop cv labels gray faces acc = Ret (acc ++ ds).
Proof.
  revert acc. induction faces as [|b faces IH]; intros acc Hall; simpl.
  - exists []. by rewrite app_nil_r.
  - inversion Hall as [|? ? Hb Hrest]; subst.
    destruct (roi_of cv gray b) as [roi|e]; [|done]. simpl.
    destruct (classify cv labels roi) as [name conf].
    destruct (IH (acc ++ [(name, conf, b)]) Hrest) as (ds & ->).
    exists ((name, conf, b) :: ds). by rewrite <- app_assoc.
Qed.

Lemma recognize_faces_inv frame results :
  recognize_faces cv labels frame = Ret results ->
  exists gray faces,
    equalised cv frame = Ret gray /\
    detectMultiScale cv gray = Ret faces /\
    Forall2 (reported cv labels gray) faces results.
Proof.
  unfold recognize_faces. intros H.
  apply bind_Ret in H as (gray & Hg & H).
  apply bind_Ret in H as (faces & Hf & H).
  apply recognize_loop_inv in H as (ds & -> & Hds).
  exists gray, faces. by simpl.
Qed.

Lemma classify_below roi label_id conf :
  predict cv roi = Ret (label_id, conf) ->
  (conf < Config.CONFIDENCE_THRESHOLD)%Q ->
  classify cv labels roi = (default "Unknown" (labels !! label_id), conf).
Proof.
  intros Hp Hlt. unfold classify. rewrite Hp.
  apply float_lt_true in Hlt. by rewrite Hlt.
Qed.

Lemma classify_above roi label_id conf :
  predict cv roi = Ret (label_id, conf) ->
  (Config.CONFIDENCE_THRESHOLD <= conf)%Q ->
  classify cv labels roi = ("Unknown", conf).
Proof.
  intros Hp Hle. unfold classify. rewrite Hp.
  apply float_lt_false in Hle. by rewrite Hle.
Qed.

Lemma classify_raise roi :
  raises (predict cv roi) -> classify cv labels roi = ("Unknown", 100%Q).
Proof.
  unfold classify. by destruct (predict cv roi) as [[? ?]|?].
Qed.

(** The label of a classified region, by the confidence reported. *)
Lemma classify_cases roi name conf :
  classify cv labels roi = (name, conf) ->
  ((Config.CONFIDENCE_THRESHOLD <= conf)%Q -> name = "Unknown") /\
  ((conf < Config.CONFIDENCE_THRESHOLD)%Q ->
     exists label_id,
       predict cv roi = Ret (label_id, conf) /\
       name = default "Unknown" (labels !! label_id)).
Proof.
  unfold classify. destruct (predict cv roi) as [[label_id c]|e].
  - destruct (float_lt c Config.CONFIDENCE_THRESHOLD) eqn:Hc;
      intros [= <- <-]; split.
    + intros Hle. apply float_lt_true in Hc.
      exfalso. exact (Qlt_not_le _ _ Hc Hle).
    + intros _. by exists label_id.
    + done.
    + intros Hlt. apply float_lt_false in Hc.
      exfalso. exact (Qlt_not_le _ _ Hlt Hc).
  - intros [= <- <-]; split; [done|].
    intros Hlt. exfalso. revert Hlt. by vm_compute.
Qed.

End Recognizer.

Section RecognizerClaims.

Import LBPHRecognizer.

(** C1 (as amended).  Every detection [recognize_faces] returns belongs
    to one detected rectangle; when its confidence is at or above
    [Config.CONFIDENCE_THRESHOLD] its label is ["Unknown"], and when it is
    strictly below, the label is what the label mapping holds for the
    predicted label id, ["Unknown"] standing in for an id the mapping
    does not hold. *)
Theorem recognize_faces_threshold cv labels frame results :
  recognize_faces cv labels frame = Ret results ->
  exists gray faces,
    equalised cv frame = Ret gray /\
    detectMultiScale cv gray = Ret faces /\
    Forall2 (fun b d =>
      det_box d = b /\
      ((Config.CONFIDENCE_THRESHOLD <= det_conf d)%Q ->
         det_name d = "Unknown") /\
      ((det_conf d < Config.CONFIDENCE_THRESHOLD)%Q ->
         exists roi label_id,
           roi_of cv gray b = Ret roi /\
           predict cv roi = Ret (label_id, det_conf d) /\
           det_name d = default "Unknown" (labels !! label_id)))
      faces results.
Proof.
  intros H. apply recognize_faces_inv in H as (gray & faces & Hg & Hf & Hall).
  exists gray, faces. split; [done|]. split; [done|].
  eapply Forall2_impl; [exact Hall|].
  intros b d (roi & Hroi & ->).
  destruct (classify cv labels roi) as [name conf] eqn:Hc.
  destruct (classify_cases cv labels roi name conf Hc) as [Habove Hbelow].
  unfold det_box, det_name, det_conf. simpl.
  split; [done|]. split; [done|].
  intros Hlt. destruct (Hbelow Hlt) as (label_id & Hp & ->).
  by exists roi, label_id.
Qed.

Lemma recognize_faces_threshold_witness :
  exists gray faces,
    equalised Samples.cv_hit Samples.frame12 = Ret gray /\
    detectMultiScale Samples.cv_hit gray = Ret faces /\
    Forall2 (fun b d =>
      det_box d = b /\
      ((Config.CONFIDENCE_THRESHOLD <= det_conf d)%Q ->
         det_name d = "Unknown") /\
      ((det_conf d < Config.CONFIDENCE_THRESHOLD)%Q ->
         exists roi label_id,
           roi_of Samples.cv_hit gray b = Ret roi /\
           predict Samples.cv_hit roi = Ret (label_id, det_conf d) /\
           det_name d = default "Unknown"
                          (({[ 0 := "alice" ]} : gmap Z string) !! label_id)))
      faces [("alice", 45%Q, Samples.box11)].
Proof.
  apply (recognize_faces_threshold Samples.cv_hit {[ 0 := "alice" ]}
           Samples.frame12).
  reflexivity.
Defined.

(** C1 (counterexample).  A model that answers label id 0 at distance 45,
    below the threshold, with a label mapping that holds only id 1: the
    detection is reported as ["Unknown"]. *)
Lemma recognize_faces_unknown_below_threshold :
  exists d,
    recognize_faces Samples.cv_hit {[ 1 := "alice" ]} Samples.frame12
      = Ret [d] /\
    (det_conf d < Config.CONFIDENCE_THRESHOLD)%Q /\
    det_name d = "Unknown".
Proof.
  exists ("Unknown", 45%Q, Samples.box11).
  split; [reflexivity|]. split; [by vm_compute | reflexivity].
Qed.

(** C10.  Once the frame is equalised, the rectangles are detected and
    each of them is resized, [recognize_faces] returns, with one entry
    per rectangle and in the order of the rectangles; the entry of a
    rectangle on which [predict] raises is [("Unknown", 100.0, box)]. *)
Theorem recognize_faces_predict_raises cv labels frame gray faces :
  equalised cv frame = Ret gray ->
  detectMultiScale cv gray = Ret faces ->
  Forall (fun b => returns (roi_of cv gray b)) faces ->
  exists results,
    recognize_faces cv labels frame = Ret results /\
    length results = length faces /\
    map det_box results = faces /\
    Forall2 (fun b d =>
      forall roi, roi_of cv gray b = Ret roi -> raises (predict cv roi) ->
                  d = ("Unknown", 100%Q, b))
      faces results.
Proof.
  intros Hg Hf Hall.
  destruct (recognize_loop_total cv labels gray faces [] Hall) as (ds & Hds).
  simpl in Hds. exists ds.
  assert (Hrun : recognize_faces cv labels frame = Ret ds).
  { unfold recognize_faces. rewrite Hg. simpl. rewrite Hf. by simpl. }
  split; [done|].
  apply recognize_loop_inv in Hds as (ds' & Heq & Hrep).
  simpl in Heq. subst ds'.
  split; [symmetry; by eapply Forall2_length|].
  split.
  - clear -Hrep. induction Hrep as [|b d faces ds (roi & _ & ->) _ IH];
      simpl; [done|]. by rewrite IH.
  - eapply Forall2_impl; [exact Hrep|].
    intros b d (roi & Hroi & ->) roi' Hroi' Hraise.
    rewrite Hroi in Hroi'. injection Hroi' as <-.
    by rewrite (classify_raise cv labels roi Hraise).
Qed.

Lemma recognize_faces_predict_raises_witness :
  exists results,
    recognize_faces Samples.cv_broken ∅ Samples.frame12 = Ret results /\
    length results = length [Samples.box11] /\
    map det_box results = [Samples.box11] /\
    Forall2 (fun b d =>
      forall roi, roi_of Samples.cv_broken [[100; 200]] b = Ret roi ->
                  raises (predict Samples.cv_broken roi) ->
                  d = ("Unknown", 100%Q, b))
      [Samples.box11] results.
Proof.
  apply (recognize_faces_predict_raises Samples.cv_broken ∅ Samples.frame12
           [[100; 200]] [Samples.box11]).
  - reflexivity.
  - reflexivity.
  - repeat constructor.
Defined.

End RecognizerClaims.

Section LabelMapping.

Import LBPHRecognizer.

Lemma train_loop_dirs cv listing label_id self_labels faces labels m out :
  Forall (fun e => is_dir e = true) listing ->
  train_loop cv listing label_id self_labels faces labels = (m, Ret out) ->
  m = foldl load_step self_labels (enumerate_from label_id listing).
Proof.
  revert label_id self_labels faces labels.
  induction listing as [|e listing IH];
    intros label_id self_labels faces labels Hall H; simpl in *.
  - congruence.
  - inversion Hall as [|? ? He Hrest]; subst. rewrite He in *. simpl in H.
    destruct (train_images cv (jpgs e) label_id faces labels)
      as [[faces' labels']|err]; [|congruence].
    by apply IH in H.
Qed.

(** When every entry of the corpus directory is a directory, a [train]
    that returns builds the mapping [_load_labels] rebuilds. *)
Lemma train_load_labels_dirs cv listing out :
  Forall (fun e => is_dir e = true) listing ->
  (train cv listing).2 = Ret out ->
  (train cv listing).1 = _load_labels listing.
Proof.
  intros Hall H. unfold train in *.
  destruct (train_loop cv listing 0 ∅ [] []) as [m r] eqn:Ht.
  simpl in *. destruct r as [samples|e]; [|done].
  by apply train_loop_dirs in Ht.
Qed.

(** C2 (the defect).  In a corpus directory whose listing starts with the
    model file, [train] numbers the person directories 0 and 1, and these
    are the label ids the classifier is trained on, while [_load_labels]
    numbers the same directories 1 and 2: label id 0 is "alice" after
    [train] and unmapped after a load, label id 1 is "bob" after [train]
    and "alice" after a load. *)
Theorem load_labels_shifted :
  let trained := train Samples.cv_hit Samples.listing_with_model in
  let loaded := _load_labels Samples.listing_with_model in
  trained.1 = {[ 0 := "alice"; 1 := "bob" ]} /\
  trained.2 = Ret (Some ([ [[100; 200]]; [[100; 200]] ], [0; 1])) /\
  loaded = {[ 1 := "alice"; 2 := "bob" ]} /\
  trained.1 !! 0 = Some "alice" /\ loaded !! 0 = None /\
  trained.1 !! 1 = Some "bob" /\ loaded !! 1 = Some "alice" /\
  trained.1 <> loaded.
Proof.
  intros trained loaded.
  assert (Ht : trained.1 = {[ 0 := "alice"; 1 := "bob" ]}) by reflexivity.
  assert (Hl : loaded = {[ 1 := "alice"; 2 := "bob" ]}) by reflexivity.
  repeat (split; [reflexivity|]).
  intros Heq. apply (f_equal (fun m : gmap Z string => m !! 0)) in Heq.
  rewrite Ht, Hl in Heq. vm_compute in Heq. discriminate.
Qed.

End LabelMapping.

(** ** Capture *)

Section Capture.

Import LBPHRecognizer PiPatrol.

Lemma capture_frame_no_camera env st :
  camera (self st) = None -> capture_frame env st = (st, Ret None).
Proof. intros H. unfold capture_frame. by rewrite H. Qed.

Lemma capture_frame_returns env st :
  (capture_frame env st).2 = Ret None \/
  exists frame, (capture_frame env st).2 = Ret (Some frame) /\
                (capture_try env st).2 = Ret frame.
Proof.
  unfold capture_frame. destruct (camera (self st)); [|by left].
  destruct (capture_try env st) as [st' [frame|e]]; simpl.
  - right. by exists frame.
  - by left.
Qed.

Lemma capture_frame_caught env st :
  raises (capture_try env st).2 -> (capture_frame env st).2 = Ret None.
Proof.
  unfold capture_frame. destruct (camera (self st)); [|done].
  by destruct (capture_try env st) as [st' [frame|e]].
Qed.

Lemma grab_raises_capture_try env st :
  raises (grab_and_annotate env st) -> raises (capture_try env st).2.
Proof.
  unfold capture_try. by destruct (grab_and_annotate env st).
Qed.

(** The three kinds of failure before the frame is published. *)
Lemma camera_error_raises env st :
  raises (capture_array env) -> raises (grab_and_annotate env st).
Proof.
  unfold grab_and_annotate. by destruct (capture_array env).
Qed.

Lemma detector_error_raises env st shot frame :
  capture_array env = Ret shot ->
  cvtColor_RGB2BGR env shot = Ret frame ->
  raises (recognize_faces (cv env) (labels (self st)) frame) ->
  raises (grab_and_annotate env st).
Proof.
  intros Hs Hc. unfold grab_and_annotate. rewrite Hs. simpl. rewrite Hc.
  simpl. by destruct (recognize_faces _ _ _).
Qed.

Lemma write_error_raises env st shot frame detections annotated :
  capture_array env = Ret shot ->
  cvtColor_RGB2BGR env shot = Ret frame ->
  recognize_faces (cv env) (labels (self st)) frame = Ret detections ->
  annotate env frame detections = Ret annotated ->
  raises (mkdir_EVENTS_DIR env) \/ raises (imwrite_live_path env annotated) ->
  raises (grab_and_annotate env st).
Proof.
  intros Hs Hc Hr Ha. unfold grab_and_annotate.
  rewrite Hs. simpl. rewrite Hc. simpl. rewrite Hr. simpl.
  rewrite Ha. simpl. intros [H|H].
  - by destruct (mkdir_EVENTS_DIR env).
  - destruct (mkdir_EVENTS_DIR env); [|done]. simpl.
    by destruct (imwrite_live_path env annotated).
Qed.

Lemma publish_error_raises env st frame :
  grab_and_annotate env st = Ret frame ->
  raises (WebServer.set_frame (publish env) frame None (web st)).2 ->
  raises (capture_try env st).2.
Proof.
  intros Hg. unfold capture_try. rewrite Hg.
  destruct (WebServer.set_frame _ _ _ _) as [g [[]|e]]; by simpl.
Qed.

(** [capture_frame] changes the state only by publishing to the web
    server. *)
Lemma capture_frame_self env st :
  self (capture_frame env st).1 = self st /\
  db (capture_frame env st).1 = db st.
Proof.
  unfold capture_frame. destruct (camera (self st)); [|done].
  unfold capture_try. destruct (grab_and_annotate env st); [|done].
  by destruct (WebServer.set_frame _ _ _ _).
Qed.

End Capture.

Section CaptureClaims.

Import LBPHRecognizer PiPatrol.

Lemma on_motion_capture_none tenv st :
  (capture_frame (Loop.capture tenv)
     (wake_camera (Loop.open_camera tenv)
        (set_last_motion_time (Loop.time_motion tenv) st))).2 = Ret None ->
  (Loop.on_motion tenv st).2 = Ret tt.
Proof.
  unfold Loop.on_motion. intros H.
  destruct (capture_frame _ _) as [st' r]. simpl in H. by subst r.
Qed.

Lemma tick_camera_error tenv st :
  raises (capture_array (Loop.capture tenv)) -> (Loop.tick tenv st).2 = Ret tt.
Proof.
  intros H. unfold Loop.tick.
  destruct (Loop.motion tenv); [|done].
  apply on_motion_capture_none, capture_frame_caught,
    grab_raises_capture_try, camera_error_raises, H.
Qed.

Lemma run_camera_errors envs st :
  Forall (fun tenv => raises (capture_array (Loop.capture tenv))) envs ->
  (Loop.run envs st).2 = Ret tt.
Proof.
  revert st. induction envs as [|tenv envs IH]; intros st Hall; simpl.
  - done.
  - inversion Hall as [|? ? Hraise Hrest]; subst.
    pose proof (tick_camera_error tenv st Hraise) as Ht.
    destruct (Loop.tick tenv st) as [st' r]. simpl in Ht. subst r.
    by apply IH.
Qed.

(** C4.  [capture_frame] returns [None] when there is no camera; it
    never raises; whenever anything in its [try] block raises (the camera
    read, the recogniser, the directory or file write, the publication)
    it returns [None]; a pass of the motion loop whose [capture_frame]
    returns [None] ends normally, and a loop whose camera fails at every
    pass runs through all its passes. *)
Theorem capture_frame_never_raises env st :
  (camera (self st) = None -> capture_frame env st = (st, Ret None)) /\
  returns (capture_frame env st).2 /\
  (raises (capture_try env st).2 -> (capture_frame env st).2 = Ret None) /\
  (raises (capture_array env) -> (capture_frame env st).2 = Ret None) /\
  (forall shot frame,
     capture_array env = Ret shot ->
     cvtColor_RGB2BGR env shot = Ret frame ->
     raises (recognize_faces (cv env) (labels (self st)) frame) ->
     (capture_frame env st).2 = Ret None) /\
  (forall shot frame detections annotated,
     capture_array env = Ret shot ->
     cvtColor_RGB2BGR env shot = Ret frame ->
     recognize_faces (cv env) (labels (self st)) frame = Ret detections ->
     annotate env frame detections = Ret annotated ->
     raises (mkdir_EVENTS_DIR env) \/
       raises (imwrite_live_path env annotated) ->
     (capture_frame env st).2 = Ret None) /\
  (forall tenv st0,
     Loop.capture tenv = env ->
     wake_camera (Loop.open_camera tenv)
       (set_last_motion_time (Loop.time_motion tenv) st0) = st ->
     (capture_frame env st).2 = Ret None ->
     (Loop.tick tenv st0).2 = Ret tt) /\
  (forall envs st0,
     Forall (fun tenv => raises (capture_array (Loop.capture tenv))) envs ->
     (Loop.run envs st0).2 = Ret tt).
Proof.
  split; [apply capture_frame_no_camera|].
  split.
  { destruct (capture_frame_returns env st) as [H|(frame & H & _)];
      by rewrite H. }
  split; [apply capture_frame_caught|].
  split.
  { intros H. by apply capture_frame_caught, grab_raises_capture_try,
      camera_error_raises. }
  split.
  { intros shot frame Hs Hc H.
    eapply capture_frame_caught, grab_raises_capture_try,
      detector_error_raises; eauto. }
  split.
  { intros shot frame detections annotated Hs Hc Hr Ha H.
    eapply capture_frame_caught, grab_raises_capture_try,
      write_error_raises; eauto. }
  split.
  { intros tenv st0 <- <- H. unfold Loop.tick.
    destruct (Loop.motion tenv); [|done].
    by apply on_motion_capture_none. }
  intros envs st0. apply run_camera_errors.
Qed.

Lemma capture_frame_never_raises_witness :
  capture_frame
    (Samples.capture_env (Raise (Exception "camera timeout")) Samples.cv_hit)
    (Samples.state (Some Camera) 0%Q)
  = (Samples.state (Some Camera) 0%Q, Ret None) /\
  capture_frame (Samples.capture_env (Ret Samples.frame12) Samples.cv_hit)
    (Samples.state None 0%Q)
  = (Samples.state None 0%Q, Ret None).
Proof.
  split.
  - pose proof (capture_frame_never_raises
      (Samples.capture_env (Raise (Exception "camera timeout")) Samples.cv_hit)
      (Samples.state (Some Camera) 0%Q)) as (_ & _ & _ & H & _).
    specialize (H I). apply injective_projections; [reflexivity | exact H].
  - apply (capture_frame_never_raises
      (Samples.capture_env (Ret Samples.frame12) Samples.cv_hit)
      (Samples.state None 0%Q)). reflexivity.
Defined.

End CaptureClaims.

(** ** The published label *)

Section PublishedLabel.

Import LBPHRecognizer PiPatrol.

Lemma set_frame_label env frame label g :
  WebServer.current_label (WebServer.set_frame env frame label g).1
    = default "Unknown" label /\
  WebServer.current_frame (WebServer.set_frame env frame label g).1
    = Some frame.
Proof.
  unfold WebServer.set_frame.
  destruct (WebServer.imencode env frame) as [[[] buf]|e]; by simpl.
Qed.

Lemma capture_try_web env st :
  match grab_and_annotate env st with
  | Ret frame =>
      web (capture_try env st).1
        = (WebServer.set_frame (publish env) frame None (web st)).1
  | Raise _ => (capture_try env st).1 = st
  end.
Proof.
  unfold capture_try. destruct (grab_and_annotate env st); [|done].
  by destruct (WebServer.set_frame _ _ _ _).
Qed.

Lemma capture_frame_label_cases env st :
  WebServer.current_label (web (capture_frame env st).1) = "Unknown" \/
  (capture_frame env st).1 = st.
Proof.
  unfold capture_frame. destruct (camera (self st)); [|by right].
  pose proof (capture_try_web env st) as H.
  destruct (capture_try env st) as [st' r]. simpl in *.
  destruct (grab_and_annotate env st) as [frame|e].
  - left. rewrite H. apply set_frame_label.
  - right. exact H.
Qed.

Lemma capture_frame_published env st frame :
  (capture_frame env st).2 = Ret (Some frame) ->
  WebServer.current_label (web (capture_frame env st).1) = "Unknown" /\
  WebServer.current_frame (web (capture_frame env st).1) = Some frame.
Proof.
  unfold capture_frame. destruct (camera (self st)); [|done].
  pose proof (capture_try_web env st) as H.
  unfold capture_try in *.
  destruct (grab_and_annotate env st) as [frame'|e]; [|done].
  destruct (WebServer.set_frame (publish env) frame' None (web st))
    as [g r] eqn:Hs.
  simpl in *. destruct r as [[]|e]; simpl; [|done].
  intros [= <-].
  pose proof (set_frame_label (publish env) frame' None (web st)) as Hl.
  by rewrite Hs in Hl.
Qed.

Lemma capture_frame_keeps_unknown env st :
  WebServer.current_label (web st) = "Unknown" ->
  WebServer.current_label (web (capture_frame env st).1) = "Unknown".
Proof.
  intros H. destruct (capture_frame_label_cases env st) as [Hc|Hc];
    [done | by rewrite Hc].
Qed.

Lemma tick_keeps_unknown tenv st :
  WebServer.current_label (web st) = "Unknown" ->
  WebServer.current_label (web (Loop.tick tenv st).1) = "Unknown".
Proof.
  intros H. unfold Loop.tick. destruct (Loop.motion tenv); simpl.
  - unfold Loop.on_motion.
    set (st1 := wake_camera _ _).
    assert (H1 : WebServer.current_label (web st1) = "Unknown").
    { subst st1. unfold wake_camera, initialize_camera.
      simpl. destruct (camera (self st)); [done|].
      by destruct (Loop.open_camera tenv). }
    pose proof (capture_frame_keeps_unknown (Loop.capture tenv) st1 H1) as H2.
    destruct (capture_frame (Loop.capture tenv) st1) as [st2 r]. simpl in H2.
    destruct r as [[frame|]|e]; [|done|done].
    destruct (recognize_faces _ _ _); [|done].
    by destruct (Loop.imwrite_event _ _ _).
  - unfold Loop.on_idle. destruct (camera (self st)) eqn:Hc; [|done].
    destruct (float_lt _ _); [|done].
    unfold stop_camera. by rewrite Hc.
Qed.

Lemma run_keeps_unknown envs st :
  WebServer.current_label (web st) = "Unknown" ->
  WebServer.current_label (web (Loop.run envs st).1) = "Unknown".
Proof.
  revert st. induction envs as [|tenv envs IH]; intros st H; simpl; [done|].
  pose proof (tick_keeps_unknown tenv st H) as Ht.
  destruct (Loop.tick tenv st) as [st' r]. simpl in Ht.
  destruct r; [by apply IH | done].
Qed.

(** C5.  [capture_frame] calls [set_frame] without a label: a frame it
    returns has been published with the label ["Unknown"], whatever was
    detected in it; a call either leaves the state as it is or leaves
    ["Unknown"] as label; and from the initial ["Unknown"] on, the
    [current_label] that [status] reports is ["Unknown"] after any
    [capture_frame] and after any number of passes of the loop. *)
Theorem capture_frame_label_unknown env st :
  (forall frame,
     (capture_frame env st).2 = Ret (Some frame) ->
     WebServer.current_label (web (capture_frame env st).1) = "Unknown") /\
  (WebServer.current_label (web (capture_frame env st).1) = "Unknown" \/
   (capture_frame env st).1 = st) /\
  (WebServer.current_label (web st) = "Unknown" ->
     (WebServer.status (web (capture_frame env st).1)).1.1 = "Unknown") /\
  (forall envs,
     WebServer.current_label (web st) = "Unknown" ->
     (WebServer.status (web (Loop.run envs st).1)).1.1 = "Unknown").
Proof.
  split; [intros frame H; exact (proj1 (capture_frame_published _ _ _ H))|].
  split; [apply capture_frame_label_cases|].
  split; [apply capture_frame_keeps_unknown|].
  intros envs. apply run_keeps_unknown.
Qed.

Lemma capture_frame_label_unknown_witness :
  (capture_frame (Samples.capture_env (Ret Samples.frame12) Samples.cv_hit)
     (Samples.state (Some Camera) 0%Q)).2 = Ret (Some Samples.frame12) /\
  recognize_faces Samples.cv_hit {[ 0 := "alice" ]} Samples.frame12
    = Ret [("alice", 45%Q, Samples.box11)] /\
  WebServer.current_label
    (web (capture_frame
            (Samples.capture_env (Ret Samples.frame12) Samples.cv_hit)
            (Samples.state (Some Camera) 0%Q)).1) = "Unknown".
Proof.
  split; [reflexivity|]. split; [reflexivity|].
  apply (capture_frame_label_unknown
           (Samples.capture_env (Ret Samples.frame12) Samples.cv_hit)
           (Samples.state (Some Camera) 0%Q)) with Samples.frame12.
  reflexivity.
Defined.

End PublishedLabel.

(** ** Idle timeout *)

Section IdleTimeout.

Import PiPatrol.

Lemma stop_camera_off close st : camera (self (stop_camera close st)) = None.
Proof. unfold stop_camera. by destruct (camera (self st)) eqn:H. Qed.

Lemma stop_camera_active close st :
  is_Some (camera (self st)) -> stop_camera close st = set_camera None st.
Proof. intros [c H]. unfold stop_camera. by rewrite H. Qed.

Lemma on_idle_expired tenv st :
  is_Some (camera (self st)) ->
  (Config.IDLE_TIMEOUT
     < float_sub (Loop.time_idle tenv) (last_motion_time (self st)))%Q ->
  Loop.on_idle tenv st = set_camera None st.
Proof.
  intros Hc Hlt. unfold Loop.on_idle.
  destruct Hc as [c Hc]. rewrite Hc.
  apply float_lt_true in Hlt. rewrite Hlt.
  apply stop_camera_active. by rewrite Hc.
Qed.

Lemma on_idle_unchanged tenv st :
  camera (self st) = None \/
  (float_sub (Loop.time_idle tenv) (last_motion_time (self st))
     <= Config.IDLE_TIMEOUT)%Q ->
  Loop.on_idle tenv st = st.
Proof.
  unfold Loop.on_idle. intros [H|H].
  - by rewrite H.
  - destruct (camera (self st)); [|done].
    apply float_lt_false in H. by rewrite H.
Qed.

Lemma idle_tick tenv st :
  Loop.motion tenv = false -> Loop.tick tenv st = (Loop.on_idle tenv st, Ret tt).
Proof. unfold Loop.tick. by intros ->. Qed.

Lemma idle_states_off envs st :
  Forall (fun tenv => Loop.motion tenv = false) envs ->
  camera (self st) = None ->
  Loop.off_transitions st (Loop.states envs st) = 0%nat.
Proof.
  revert st. induction envs as [|tenv envs IH]; intros st Hall Hc; simpl.
  - done.
  - inversion Hall as [|? ? Hm Hrest]; subst.
    rewrite (idle_tick tenv st Hm). simpl.
    rewrite (on_idle_unchanged tenv st (or_introl Hc)).
    rewrite (IH st Hrest Hc).
    unfold Loop.powered_off. rewrite Hc.
    rewrite bool_decide_eq_false_2; [done|]. by intros [? ?].
Qed.

Lemma idle_states_active envs st :
  Forall (fun tenv => Loop.motion tenv = false) envs ->
  is_Some (camera (self st)) ->
  (Loop.off_transitions st (Loop.states envs st) <= 1)%nat /\
  (Exists (fun tenv =>
     (Config.IDLE_TIMEOUT
        < float_sub (Loop.time_idle tenv) (last_motion_time (self st)))%Q) envs ->
   Loop.off_transitions st (Loop.states envs st) = 1%nat).
Proof.
  revert st. induction envs as [|tenv envs IH]; intros st Hall Hc; simpl.
  - split; [lia|]. intros H. inversion H.
  - inversion Hall as [|? ? Hm Hrest]; subst.
    rewrite (idle_tick tenv st Hm). simpl.
    destruct (float_lt Config.IDLE_TIMEOUT
                (float_sub (Loop.time_idle tenv) (last_motion_time (self st)))%Q)
      eqn:Hlt.
    + apply float_lt_true in Hlt.
      rewrite (on_idle_expired tenv st Hc Hlt).
      rewrite (idle_states_off envs (set_camera None st) Hrest eq_refl).
      unfold Loop.powered_off. simpl.
      rewrite bool_decide_eq_true_2 by done. simpl. split; [lia | done].
    + apply float_lt_false in Hlt.
      rewrite (on_idle_unchanged tenv st (or_intror Hlt)).
      destruct (IH st Hrest Hc) as [Hle Hex].
      assert (Hp : Loop.powered_off st st = false).
      { unfold Loop.powered_off. destruct Hc as [c Hc]. rewrite Hc.
        rewrite (bool_decide_eq_false_2 (Some c = None)) by done.
        apply andb_false_r. }
      rewrite Hp. simpl. split; [done|].
      intros H. inversion H as [? ? Hnow|? ? Hlater]; subst.
      * exfalso. exact (Qlt_not_le _ _ Hnow Hlt).
      * by apply Hex.
Qed.

(** C7.  A pass in which no motion is read ends normally.  The time
    since [last_motion_time] is the float the pass computes,
    [time.time() - self.last_motion_time].  If the camera is active and
    that time exceeds [Config.IDLE_TIMEOUT], the pass sets the camera
    handle to [None] and changes nothing else; if the camera is inactive
    or that time does not exceed the timeout, the pass leaves the state as
    it is.  Along any run of such passes the camera is powered off at most
    once, and exactly once when it is active at the start and the timeout
    is exceeded in some pass. *)
Theorem idle_pass_powers_off tenv st :
  Loop.motion tenv = false ->
  (Loop.tick tenv st).2 = Ret tt /\
  (is_Some (camera (self st)) ->
   (Config.IDLE_TIMEOUT
      < float_sub (Loop.time_idle tenv) (last_motion_time (self st)))%Q ->
   (Loop.tick tenv st).1 = set_camera None st /\
   camera (self (Loop.tick tenv st).1) = None /\
   Loop.powered_off st (Loop.tick tenv st).1 = true) /\
  (camera (self st) = None \/
   (float_sub (Loop.time_idle tenv) (last_motion_time (self st))
      <= Config.IDLE_TIMEOUT)%Q ->
   (Loop.tick tenv st).1 = st) /\
  (forall envs,
     Forall (fun tenv => Loop.motion tenv = false) envs ->
     (Loop.off_transitions st (Loop.states envs st) <= 1)%nat /\
     (is_Some (camera (self st)) ->
      Exists (fun tenv =>
        (Config.IDLE_TIMEOUT
           < float_sub (Loop.time_idle tenv) (last_motion_time (self st)))%Q) envs ->
      Loop.off_transitions st (Loop.states envs st) = 1%nat)).
Proof.
  intros Hm. rewrite (idle_tick tenv st Hm). simpl.
  split; [done|]. split.
  { intros Hc Hlt. rewrite (on_idle_expired tenv st Hc Hlt).
    split; [done|]. split; [done|].
    unfold Loop.powered_off. simpl.
    by rewrite !bool_decide_eq_true_2. }
  split; [apply on_idle_unchanged|].
  intros envs Hall. destruct (camera (self st)) as [c|] eqn:Hc.
  - assert (Hs : is_Some (camera (self st))) by (by rewrite Hc).
    destruct (idle_states_active envs st Hall Hs) as [Hle Hex].
    split; [done|]. intros _. exact Hex.
  - rewrite (idle_states_off envs st Hall Hc). split; [lia|].
    by intros [? ?].
Qed.

Lemma idle_pass_powers_off_witness :
  (Loop.tick (Samples.tick_env false (Ret Samples.frame12) 111%Q)
     (Samples.state (Some Camera) 100%Q)).1
    = Samples.state None 100%Q /\
  (Loop.tick (Samples.tick_env false (Ret Samples.frame12) 110%Q)
     (Samples.state (Some Camera) 100%Q)).1
    = Samples.state (Some Camera) 100%Q.
Proof.
  split.
  - apply (idle_pass_powers_off
             (Samples.tick_env false (Ret Samples.frame12) 111%Q)
             (Samples.state (Some Camera) 100%Q)).
    + reflexivity.
    + by eexists.
    + by vm_compute.
  - apply (idle_pass_powers_off
             (Samples.tick_env false (Ret Samples.frame12) 110%Q)
             (Samples.state (Some Camera) 100%Q)).
    + reflexivity.
    + right. by vm_compute.
Defined.

(** The elapsed time is a rounded difference: with the clock at
    10.000000000000002 (10 + 2^-49) and [last_motion_time] at 1e-15 the
    pass computes 10.0, which does not exceed the timeout, and the camera
    stays on. *)
Example idle_pass_rounded_difference :
  let now := (5629499534213121 # 562949953421312)%Q in
  let last := (2535301200456459 # 2535301200456458802993406410752)%Q in
  (Config.IDLE_TIMEOUT < now - last)%Q /\
  float_sub now last = 10%Q /\
  (Loop.tick (Samples.tick_env false (Ret Samples.frame12) now)
     (Samples.state (Some Camera) last)).1
    = Samples.state (Some Camera) last.
Proof. by vm_compute. Qed.

End IdleTimeout.

(** ** The event store *)

Section EventStore.

Import Database PiPatrol.

Lemma max_id_ge (l : list Event) :
  0 <= max_id l /\ Forall (fun e => id e <= max_id l) l.
Proof.
  induction l as [|e l [IH0 IH]]; simpl.
  - split; [lia | constructor].
  - split; [lia|]. constructor; [lia|].
    eapply Forall_impl; [exact IH|]. simpl. intros e' He'. lia.
Qed.

Lemma max_id_app (l : list Event) (e : Event) :
  max_id (l ++ [e]) = Z.max (max_id l) (Z.max (id e) 0).
Proof. induction l as [|e' l IH]; simpl; [lia|]. rewrite IH. lia. Qed.

Lemma high_ge (t : Table) :
  0 <= high t /\ seq t <= high t /\ Forall (fun e => id e <= high t) (rows t).
Proof.
  unfold high, max_rowid. destruct (max_id_ge (rows t)) as [H0 H].
  split; [lia|]. split; [lia|].
  eapply Forall_impl; [exact H|]. simpl. intros e He. lia.
Qed.

Lemma filter_id_none (i : Z) (l : list Event) :
  Forall (fun e => id e ≠ i) l -> filter (fun e => id e = i) l = [].
Proof.
  induction 1 as [|e l He _ IH]; [done|].
  rewrite filter_cons. by destruct (decide (id e = i)).
Qed.

(** What a successful insert does. *)
Lemma insert_Ret ts ty path person t t' :
  insert ts ty path person t = Ret t' ->
  next_rowid t <= MAX_ROWID /\
  rows t' = rows t ++ [{| id := next_rowid t; timestamp := ts;
                          event_type := ty; file_path := path;
                          person_name := person |}] /\
  seq t' = next_rowid t /\
  high t' = next_rowid t.
Proof.
  unfold insert. case_bool_decide as Hle; [|done].
  intros [= <-]. simpl. split; [done|]. split; [done|]. split; [done|].
  unfold high, max_rowid. simpl. rewrite max_id_app. simpl.
  destruct (high_ge t) as (H0 & _ & _).
  unfold next_rowid, high, max_rowid in *. lia.
Qed.

Lemma extends_refl t : extends t t.
Proof.
  exists []. rewrite app_nil_r.
  split; [done|]. split; [constructor|]. split; [constructor | lia].
Qed.

Lemma StronglySorted_lt_app (l1 l2 : list Z) :
  StronglySorted Z.lt l1 -> StronglySorted Z.lt l2 ->
  (forall x y, x ∈ l1 -> y ∈ l2 -> x < y) ->
  StronglySorted Z.lt (l1 ++ l2).
Proof.
  intros H1 H2 H. induction H1 as [|x l1 Hl1 IH Hx]; simpl; [done|].
  constructor.
  - apply IH. intros a b Ha Hb. apply H; [by right | done].
  - apply Forall_app. split; [done|].
    apply Forall_forall. intros y Hy. apply H; [by left | done].
Qed.

Lemma extends_trans t1 t2 t3 : extends t1 t2 -> extends t2 t3 -> extends t1 t3.
Proof.
  intros (s1 & Hr1 & Hf1 & Hs1 & Hh1) (s2 & Hr2 & Hf2 & Hs2 & Hh2).
  exists (s1 ++ s2). split; [by rewrite Hr2, Hr1, app_assoc|].
  split; [|split; [|lia]].
  - apply Forall_app. split; [done|].
    eapply Forall_impl; [exact Hf2|]. simpl. intros e He. lia.
  - rewrite map_app. apply StronglySorted_lt_app; [done..|].
    intros x y Hx Hy.
    apply list_elem_of_fmap in Hx as (ex & -> & Hex).
    apply list_elem_of_fmap in Hy as (ey & -> & Hey).
    destruct (high_ge t2) as (_ & _ & Hrows).
    rewrite Hr1 in Hrows. apply Forall_app in Hrows as [_ Hrows].
    rewrite Forall_forall in Hrows, Hf2.
    specialize (Hrows ex Hex). specialize (Hf2 ey Hey). lia.
Qed.

Lemma log_event_extends env ty path person t :
  extends t (log_event env ty path person t).
Proof.
  unfold log_event. destruct (connect env) as [[]|e]; simpl;
    [|apply extends_refl].
  destruct (insert _ _ _ _ t) as [t'|e] eqn:Hi; [|apply extends_refl].
  simpl. destruct (commit env) as [[]|e]; simpl; [|apply extends_refl].
  apply insert_Ret in Hi as (_ & Hrows & _ & Hhigh).
  eexists. split; [exact Hrows|]. unfold next_rowid in *.
  split; [repeat constructor; simpl; lia|].
  split; [repeat constructor | lia].
Qed.

Lemma log_events_extends calls t : extends t (log_events calls t).
Proof.
  revert t. induction calls as [|c calls IH]; intros t; simpl.
  - apply extends_refl.
  - eapply extends_trans; [apply log_event_extends | apply IH].
Qed.

Lemma extends_sorted t t' :
  extends t t' -> StronglySorted Z.lt (ids t) -> StronglySorted Z.lt (ids t').
Proof.
  intros (s & Hr & Hf & Hs & _) Ht. unfold ids in *. rewrite Hr, map_app.
  apply StronglySorted_lt_app; [done..|].
  intros x y Hx Hy.
  apply list_elem_of_fmap in Hx as (ex & -> & Hex).
  apply list_elem_of_fmap in Hy as (ey & -> & Hey).
  destruct (high_ge t) as (_ & _ & Hrows).
  rewrite Forall_forall in Hrows, Hf.
  specialize (Hrows ex Hex). specialize (Hf ey Hey). lia.
Qed.

End EventStore.

(** ** The dashboard's view of the store *)

Section DashboardView.

Import Database Dashboard.

#[local] Instance id_desc_total : Total id_desc.
Proof. intros a b. unfold id_desc. lia. Qed.

#[local] Instance id_desc_trans : Transitive id_desc.
Proof. intros a b c. unfold id_desc. lia. Qed.

Lemma sorted_ids_inj (l : list Event) (x y : Event) :
  StronglySorted Z.lt (map id l) -> x ∈ l -> y ∈ l -> id x = id y -> x = y.
Proof.
  induction l as [|e l IH]; simpl; intros Hs Hx Hy Heq.
  - by apply elem_of_nil in Hx.
  - apply StronglySorted_inv in Hs as [Hs Hall].
    rewrite Forall_forall in Hall.
    apply elem_of_cons in Hx as [->|Hx]; apply elem_of_cons in Hy as [->|Hy].
    + done.
    + assert (id e < id y); [|lia].
      apply Hall. apply list_elem_of_fmap. by exists y.
    + assert (id e < id x); [|lia].
      apply Hall. apply list_elem_of_fmap. by exists x.
    + by apply IH.
Qed.

Lemma sorted_ids_reverse (l : list Event) :
  StronglySorted Z.lt (map id l) -> Sorted id_desc (reverse l).
Proof.
  intros Hs.
  assert (Hl : Sorted (fun a b => id a < id b) l).
  { clear -Hs. induction l as [|e l IH]; [constructor|]. simpl in Hs.
    apply StronglySorted_inv in Hs as [Hs Hall].
    constructor; [by apply IH|].
    destruct l as [|e' l]; constructor.
    by inversion Hall. }
  apply Sorted_reverse in Hl.
  clear -Hl. induction Hl as [|x l' Hl IH Hhd]; constructor; [done|].
  destruct Hhd; constructor. unfold flip, id_desc in *. lia.
Qed.

(** In a table whose ids increase, ordering by descending id gives the
    rows in reverse insertion order. *)
Lemma order_by_id_desc (t : Table) :
  StronglySorted Z.lt (ids t) ->
  merge_sort id_desc (rows t) = reverse (rows t).
Proof.
  intros Hs. apply (Sorted_unique_strong id_desc).
  - intros x1 x2 H1 H2 H12 H21. unfold id_desc in *.
    apply (sorted_ids_inj (rows t)); [done| | |lia].
    + by rewrite merge_sort_Permutation in H1.
    + by rewrite reverse_Permutation in H2.
  - apply Sorted_merge_sort, _.
  - by apply sorted_ids_reverse.
  - by rewrite merge_sort_Permutation, reverse_Permutation.
Qed.

(** The newest row is the first entry [get_events] returns. *)
Lemma get_events_newest (t : Table) (l : list Event) (ev : Event) :
  StronglySorted Z.lt (ids t) ->
  rows t = l ++ [ev] ->
  head (get_events t) = Some (id ev, timestamp ev, event_type ev, file_path ev).
Proof.
  intros Hs Hrows. unfold get_events.
  rewrite (order_by_id_desc t Hs), Hrows, reverse_snoc. reflexivity.
Qed.

End DashboardView.

Section EventStoreClaims.

Import Database PiPatrol.

Lemma select_new_row t ev suffix :
  high t < id ev ->
  Forall (fun e => id ev < id e) suffix ->
  filter (fun e => id e = id ev) ((rows t ++ [ev]) ++ suffix) = [ev].
Proof.
  intros Hhigh Hsuffix. rewrite !filter_app.
  rewrite (filter_id_none (id ev) (rows t)).
  - rewrite (filter_id_none (id ev) suffix).
    + rewrite filter_cons. destruct (decide (id ev = id ev)); [|done].
      by rewrite filter_nil.
    + eapply Forall_impl; [exact Hsuffix|]. simpl. intros e He. lia.
  - destruct (high_ge t) as (_ & _ & Hrows).
    eapply Forall_impl; [exact Hrows|]. simpl. intros e He. lia.
Qed.

(** C8.  Along any series of [log_event] calls the ids of the table stay
    strictly increasing in insertion order.  A call whose connect and
    commit succeed while rowids are left appends exactly one row; its
    id is larger than every id the table has ever held, and selecting
    that id, at once or after any further calls, returns that one row
    with the timestamp, event type, file path and person name that were
    written; the dashboard's [get_events] lists it first.  A call that
    fails leaves the table as it was. *)
Theorem event_ids_strictly_increase env ty path person calls t :
  StronglySorted Z.lt (ids t) ->
  let t1 := log_event env ty path person t in
  let t2 := log_events calls t1 in
  StronglySorted Z.lt (ids t1) /\
  StronglySorted Z.lt (ids t2) /\
  (returns (connect env) -> returns (commit env) ->
   next_rowid t <= MAX_ROWID ->
   let ev := {| id := next_rowid t; timestamp := strftime_now env;
                event_type := ty; file_path := path;
                person_name := person |} in
   rows t1 = rows t ++ [ev] /\
   high t < id ev /\
   Forall (fun i => i < id ev) (ids t) /\
   select_by_id (id ev) t1 = [ev] /\
   select_by_id (id ev) t2 = [ev] /\
   head (Dashboard.get_events t1)
     = Some (next_rowid t, strftime_now env, ty, path)) /\
  (raises (connect env) \/ raises (commit env) \/ MAX_ROWID < next_rowid t ->
   t1 = t).
Proof.
  intros Hsorted t1 t2.
  assert (H1 : extends t t1) by apply log_event_extends.
  assert (H2 : extends t1 t2) by apply log_events_extends.
  assert (Hs1 : StronglySorted Z.lt (ids t1)) by by eapply extends_sorted.
  split; [done|]. split; [by eapply extends_sorted|]. split.
  - intros Hconn Hcommit Hle ev.
    assert (Hi : insert (strftime_now env) ty path person t
                 = Ret {| rows := rows t ++ [ev]; seq := next_rowid t |}).
    { unfold insert. by rewrite bool_decide_eq_true_2. }
    assert (Ht1 : t1 = {| rows := rows t ++ [ev]; seq := next_rowid t |}).
    { subst t1. unfold log_event. destruct (connect env) as [[]|e]; [|done].
      simpl. rewrite Hi. simpl. by destruct (commit env) as [[]|e]. }
    assert (Hhigh : high t < id ev) by (simpl; unfold next_rowid; lia).
    split; [by rewrite Ht1|]. split; [done|]. split.
    { unfold ids. apply Forall_fmap.
      destruct (high_ge t) as (_ & _ & Hrows).
      eapply Forall_impl; [exact Hrows|]. simpl. intros e He.
      unfold next_rowid. lia. }
    split.
    { unfold select_by_id. rewrite Ht1. simpl.
      rewrite <- (app_nil_r (rows t ++ [ev])).
      exact (select_new_row t ev [] Hhigh (List.Forall_nil _)). }
    split.
    { destruct H2 as (suffix & Hrows2 & Hfresh & _ & _).
      apply insert_Ret in Hi as (_ & _ & _ & Hh).
      rewrite Ht1 in Hfresh. rewrite Hh in Hfresh.
      unfold select_by_id. rewrite Hrows2, Ht1. simpl.
      exact (select_new_row t ev suffix Hhigh Hfresh). }
    apply (get_events_newest t1 (rows t) ev Hs1). by rewrite Ht1.
  - intros [Hraise|[Hraise|Hfull]]; subst t1; unfold log_event.
    + by destruct (connect env).
    + destruct (connect env) as [[]|e]; [|done]. simpl.
      destruct (insert _ _ _ _ t); [|done]. simpl.
      by destruct (commit env).
    + destruct (connect env) as [[]|e]; [|done]. simpl.
      unfold insert. rewrite bool_decide_eq_false_2; [done | lia].
Qed.

Lemma event_ids_strictly_increase_witness :
  let call := {| call_env := Samples.log_env;
                 call_event_type := "motion_recorded";
                 call_file_path := Some "/home/pi/Security/pi_patrol/recordings/record_1.mp4";
                 call_person := None |} in
  let t1 := log_event Samples.log_env "motion_detected"
              (Some "/home/pi/Security/pi_patrol/events/alice_1.jpg")
              (Some "alice") Database.empty in
  let t2 := log_events [call] t1 in
  ids t2 = [1; 2] /\
  select_by_id 1 t2
    = [{| id := 1; timestamp := "2024-01-01 12:00:00";
          event_type := "motion_detected";
          file_path := Some "/home/pi/Security/pi_patrol/events/alice_1.jpg";
          person_name := Some "alice" |}].
Proof.
  intros call t1 t2. split; [reflexivity|].
  assert (Hs : StronglySorted Z.lt (ids Database.empty)) by constructor.
  pose proof (event_ids_strictly_increase Samples.log_env "motion_detected"
    (Some "/home/pi/Security/pi_patrol/events/alice_1.jpg") (Some "alice")
    [call] Database.empty Hs) as (_ & _ & H & _).
  assert (Hle : next_rowid Database.empty <= MAX_ROWID) by (by vm_compute).
  destruct (H I I Hle) as (_ & _ & _ & _ & Hsel & _). exact Hsel.
Defined.

End EventStoreClaims.

(** ** The MJPEG stream *)

Section Stream.

Import WebServer.

Lemma stream_iteration_disabled g now last :
  live_preview_enabled g = false ->
  stream_iteration g now last = (Sleep (2 # 10), last).
Proof. unfold stream_iteration. by intros ->. Qed.

Lemma stream_iteration_yield g now last data last' :
  stream_iteration g now last = (Yield data, last') ->
  live_preview_enabled g = true /\
  encoded_jpeg g = Some (default EmptyString (encoded_jpeg g)) /\
  data = chunk (default EmptyString (encoded_jpeg g)) /\
  last' = now.
Proof.
  unfold stream_iteration.
  destruct (live_preview_enabled g); simpl; [|done].
  destruct (float_lt _ _); [done|].
  destruct (encoded_jpeg g) as [[|c s]|]; simpl; [done| |done].
  by intros [= <- <-].
Qed.

Lemma stream_from_disabled reads last :
  Forall (fun r : Globals * float => live_preview_enabled r.1 = false) reads ->
  stream_from last reads = [].
Proof.
  induction 1 as [|[g now] reads Hg _ IH]; simpl; [done|].
  simpl in Hg. by rewrite (stream_iteration_disabled g now last Hg).
Qed.

Lemma set_frame_flag env frame label g :
  live_preview_enabled (set_frame env frame label g).1
    = live_preview_enabled g.
Proof.
  unfold set_frame.
  destruct (imencode env frame) as [[[] buf]|e]; by simpl.
Qed.

Lemma serve_disabled actions g last :
  live_preview_enabled g = false ->
  Forall (fun a => is_toggle a = false) actions ->
  serve actions g last = [].
Proof.
  intros Hg Hall. revert g Hg.
  induction Hall as [|a actions Ha _ IH]; intros g Hg; simpl; [done|].
  destruct a as [env frame label|data|now]; [| done |].
  - apply IH. by rewrite set_frame_flag.
  - rewrite (stream_iteration_disabled g now last Hg). by apply IH.
Qed.

(** C9.  An iteration of [generate_stream] that reads the preview flag
    as disabled sleeps 0.2 s and yields nothing, so a generator all of
    whose iterations read the flag as disabled yields no chunk; every
    chunk is yielded by an iteration that read the flag as enabled; and
    once [toggle_preview] has stored a false flag, a client receives no
    chunk until the next toggle, whatever is published meanwhile. *)
Theorem stream_idle_while_disabled :
  (forall g now last,
     live_preview_enabled g = false ->
     stream_iteration g now last = (Sleep (2 # 10), last)) /\
  (forall g now last data last',
     stream_iteration g now last = (Yield data, last') ->
     live_preview_enabled g = true) /\
  (forall reads,
     Forall (fun r : Globals * float => live_preview_enabled r.1 = false)
       reads ->
     generate_stream reads = []) /\
  (forall data g last actions,
     py_bool (default (JBool false) (data !! "enable")) = false ->
     Forall (fun a => is_toggle a = false) actions ->
     (toggle_preview data g).2 = false /\
     serve (Toggle data :: actions) g last = []).
Proof.
  split; [apply stream_iteration_disabled|].
  split.
  { intros g now last data last' H.
    by apply stream_iteration_yield in H as [? _]. }
  split; [intros reads; apply stream_from_disabled|].
  intros data g last actions Hoff Hall. split; [done|].
  simpl. by apply serve_disabled.
Qed.

Lemma stream_idle_while_disabled_witness :
  serve [Toggle {[ "enable" := JBool false ]};
         Publish Samples.set_frame_env Samples.frame12 None;
         Iterate 1%Q; Iterate 2%Q]
    (toggle_preview {[ "enable" := JBool true ]} initial).1 0%Q = [].
Proof.
  apply stream_idle_while_disabled.
  - reflexivity.
  - repeat constructor.
Defined.

(** With the preview enabled, the same client does receive the frame. *)
Example serve_enabled :
  serve [Publish Samples.set_frame_env Samples.frame12 None;
         Iterate 1%Q; Iterate (101 # 100)]
    (toggle_preview {[ "enable" := JBool true ]} initial).1 0%Q
  = [chunk "JPEG"].
Proof. reflexivity. Qed.

End Stream.

(** ** Enrolment *)

Section Enrolment.

Import WebServer.

Lemma enroll_face_named env n g c :
  n ≠ EmptyString ->
  returns (mkdir_FACES_DIR env) ->
  enroll_face env (Some n) g c =
    match frame_source env g with
    | Raise e => (mkdir_effect c, Raise e)
    | Ret None =>
        (mkdir_effect c, Ret (error "No live frame available", 500%nat))
    | Ret (Some frame) =>
        let filename := n +:+ strftime_now env +:+ ".jpg" in
        match imwrite_face env filename frame with
        | Raise e => (mkdir_effect c, Raise e)
        | Ret false =>
            (mkdir_effect c, Ret (error "cv2.imwrite failed", 500%nat))
        | Ret true =>
            (write_face filename frame (mkdir_effect c),
             Ret (success filename, 200%nat))
        end
    end.
Proof.
  intros Hn Hmk. unfold enroll_face.
  destruct n as [|a n]; [done|].
  by destruct (mkdir_FACES_DIR env) as [[]|e].
Qed.

(** The files change only when the reply is a success. *)
Lemma enroll_face_files env name g c :
  faces_files (enroll_face env name g c).1 = faces_files c \/
  exists filename frame,
    (enroll_face env name g c).2 = Ret (success filename, 200%nat) /\
    faces_files (enroll_face env name g c).1
      = <[face_path filename := frame]> (faces_files c).
Proof.
  unfold enroll_face. destruct name as [[|a n]|]; [by left| |by left].
  destruct (mkdir_FACES_DIR env) as [[]|e]; [|by left].
  destruct (frame_source env g) as [[frame|]|e]; [|by left|by left].
  destruct (imwrite_face env _ frame) as [[]|e]; [|by left|by left].
  right. by eexists _, _.
Qed.

(** *** Paths of enrolled files *)

Lemma append_length (s1 s2 : string) :
  String.length (s1 +:+ s2) = (String.length s1 + String.length s2)%nat.
Proof. induction s1 as [|a s1 IH]; simpl; [done | by rewrite IH]. Qed.

Lemma has_slash_append (s1 s2 : string) :
  has_slash (s1 +:+ s2) = has_slash s1 || has_slash s2.
Proof.
  induction s1 as [|a s1 IH]; simpl; [done|].
  by rewrite IH, orb_assoc.
Qed.

Lemma split_slash_plain (s : string) :
  has_slash s = false -> split_slash s = [s].
Proof.
  induction s as [|a s IH]; simpl; [done|].
  intros H. apply orb_false_iff in H as [Ha Hs].
  by rewrite Ha, (IH Hs).
Qed.

(** A file name without a slash, other than "", "." and "..", names a
    file of the corpus directory itself. *)
Lemma face_path_plain (filename : string) :
  has_slash filename = false ->
  (3 <= String.length filename)%nat ->
  face_path filename = FACES_DIR ++ [filename].
Proof.
  intros Hs Hlen. unfold face_path, joinpath, path_parts.
  assert (Habs : is_absolute filename = false).
  { destruct filename as [|a f]; [done|]. simpl in Hs |- *.
    by apply orb_false_iff in Hs as [-> _]. }
  rewrite Habs, (split_slash_plain filename Hs). simpl.
  assert (Hpart : is_part filename = true).
  { unfold is_part.
    destruct (String.eqb_spec filename EmptyString) as [->|_];
      [simpl in Hlen; lia|].
    destruct (String.eqb_spec filename ".") as [->|_];
      [simpl in Hlen; lia|]. done. }
  rewrite Hpart. unfold FACES_DIR. simpl.
  destruct (String.eqb_spec filename "..") as [->|_];
    [simpl in Hlen; lia|]. done.
Qed.

Lemma face_path_jpg (n stamp : string) :
  has_slash n = false -> has_slash stamp = false ->
  face_path (n +:+ stamp +:+ ".jpg") = FACES_DIR ++ [n +:+ stamp +:+ ".jpg"].
Proof.
  intros Hn Hstamp. apply face_path_plain.
  - rewrite !has_slash_append, Hn, Hstamp. done.
  - rewrite !append_length. simpl. lia.
Qed.

End Enrolment.

Section EnrolmentClaims.

Import WebServer.

(** C6 (as amended).  Without a name, or with an empty one, the reply is
    the "Missing name" error with status 400 and the corpus is left as it
    is.  With a name, once the corpus directory is made, the frame to save
    is the current frame, or without one the decoded live snapshot if that
    file exists.  When there is no such frame the reply is "No live frame
    available" with status 500 and no file is written; when the write
    reports failure the reply is "cv2.imwrite failed" with status 500 and
    no file is written; when the write succeeds the reply is a success
    carrying the file name, which is the name followed by the timestamp
    and ".jpg".  In that last case, when neither the name nor the
    timestamp holds a slash and no file of that name is in the corpus
    directory yet, exactly one file is new, namely the file of that name
    in the corpus directory, it holds the frame, and every other file is
    as before.  No file changes unless the reply is a success. *)
Theorem enroll_face_outcomes env name g c :
  (name = None \/ name = Some EmptyString ->
   enroll_face env name g c = (c, Ret (error "Missing name", 400%nat))) /\
  (forall n,
     name = Some n -> n ≠ EmptyString -> returns (mkdir_FACES_DIR env) ->
     let filename := n +:+ strftime_now env +:+ ".jpg" in
     (forall frame,
        current_frame g = Some frame ->
        frame_source env g = Ret (Some frame)) /\
     (current_frame g = None ->
      frame_source env g
        = if LIVE_PATH_exists env then imread_LIVE_PATH env else Ret None) /\
     (frame_source env g = Ret None ->
      enroll_face env name g c
        = (mkdir_effect c,
           Ret (error "No live frame available", 500%nat))) /\
     (forall frame,
        frame_source env g = Ret (Some frame) ->
        (imwrite_face env filename frame = Ret false ->
         enroll_face env name g c
           = (mkdir_effect c, Ret (error "cv2.imwrite failed", 500%nat))) /\
        (imwrite_face env filename frame = Ret true ->
         (enroll_face env name g c).2 = Ret (success filename, 200%nat) /\
         (has_slash n = false -> has_slash (strftime_now env) = false ->
          faces_files c !! (FACES_DIR ++ [filename]) = None ->
          faces_files (enroll_face env name g c).1 !! (FACES_DIR ++ [filename])
            = Some frame /\
          dom (faces_files (enroll_face env name g c).1)
            ∖ dom (faces_files c) = {[ FACES_DIR ++ [filename] ]} /\
          (forall other, other ≠ FACES_DIR ++ [filename] ->
             faces_files (enroll_face env name g c).1 !! other
               = faces_files c !! other))))) /\
  ((forall filename,
      (enroll_face env name g c).2 ≠ Ret (success filename, 200%nat)) ->
   faces_files (enroll_face env name g c).1 = faces_files c).
Proof.
  split.
  { by intros [-> | ->]. }
  split.
  2:{ intros Hno.
      destruct (enroll_face_files env name g c)
        as [H|(filename & frame & Hr & _)]; [done|].
      by destruct (Hno filename). }
  intros n -> Hn Hmk filename.
  rewrite (enroll_face_named env n g c Hn Hmk).
  split; [unfold frame_source; by intros frame ->|].
  split; [unfold frame_source; by intros ->|].
  split; [by intros ->|].
  intros frame ->. cbv zeta. subst filename.
  split; [by intros ->|].
  intros ->. simpl. split; [done|].
  intros Hsn Hst Hfresh.
  rewrite (face_path_jpg n (strftime_now env) Hsn Hst).
  split; [by rewrite lookup_insert_eq|]. split.
  - rewrite dom_insert_L. apply not_elem_of_dom in Hfresh.
    apply set_eq. intros x.
    rewrite elem_of_difference, elem_of_union, !elem_of_singleton.
    split.
    + intros [[Hx|Hx] Hnot]; [exact Hx | by destruct Hnot].
    + intros ->. split; [by left | exact Hfresh].
  - intros other Hne. by rewrite lookup_insert_ne.
Qed.

Lemma enroll_face_outcomes_witness :
  enroll_face (Samples.enroll_env None) (Some EmptyString)
    (Samples.globals_with Samples.frame12) Samples.no_corpus
    = (Samples.no_corpus, Ret (error "Missing name", 400%nat)) /\
  (enroll_face (Samples.enroll_env None) (Some "alice")
     (Samples.globals_with Samples.frame12) Samples.no_corpus).2
    = Ret (success "alice20240101120000.jpg", 200%nat) /\
  faces_files
    (enroll_face (Samples.enroll_env None) (Some "alice")
       (Samples.globals_with Samples.frame12) Samples.no_corpus).1
    !! (FACES_DIR ++ ["alice20240101120000.jpg"]) = Some Samples.frame12 /\
  dom (faces_files
         (enroll_face (Samples.enroll_env None) (Some "alice")
            (Samples.globals_with Samples.frame12) Samples.no_corpus).1)
    ∖ dom (faces_files Samples.no_corpus)
    = {[ FACES_DIR ++ ["alice20240101120000.jpg"] ]}.
Proof.
  split.
  - apply (enroll_face_outcomes (Samples.enroll_env None) (Some EmptyString)
             (Samples.globals_with Samples.frame12) Samples.no_corpus).
    by right.
  - pose proof (enroll_face_outcomes (Samples.enroll_env None) (Some "alice")
      (Samples.globals_with Samples.frame12) Samples.no_corpus)
      as (_ & H & _).
    assert (Hn : "alice" ≠ EmptyString) by discriminate.
    destruct (H "alice" eq_refl Hn I) as (_ & _ & _ & Hf).
    destruct (Hf Samples.frame12 eq_refl) as (_ & Hw).
    destruct (Hw eq_refl) as (Hr & Hfiles).
    destruct (Hfiles eq_refl eq_refl eq_refl) as (Hnew & Hdom & _).
    split; [exact Hr|]. split; [exact Hnew | exact Hdom].
Defined.

(** C6 (counterexample).  Three requests with a name that do not write
    exactly one new file into the corpus.  With no current frame and no
    live snapshot the directory is made and the reply is "No live frame
    available" with status 500, which is neither a success nor a failed
    write, and no file is written.  A second request for "alice" within
    the second of the first is answered with a success and the same file
    name: it replaces the frame of the first, and no file is new.  And the
    name "../events/live" is answered with a success whose file is in the
    events directory, not in the corpus. *)
Lemma enroll_face_without_new_file :
  enroll_face (Samples.enroll_env None) (Some "alice") initial
    Samples.no_corpus
    = (mkdir_effect Samples.no_corpus,
       Ret (error "No live frame available", 500%nat)) /\
  (let r1 := enroll_face (Samples.enroll_env None) (Some "alice")
               (Samples.globals_with Samples.frame12) Samples.no_corpus in
   let r2 := enroll_face (Samples.enroll_env None) (Some "alice")
               (Samples.globals_with Samples.frame11) r1.1 in
   r1.2 = Ret (success "alice20240101120000.jpg", 200%nat) /\
   r2.2 = Ret (success "alice20240101120000.jpg", 200%nat) /\
   faces_files r1.1
     = {[ FACES_DIR ++ ["alice20240101120000.jpg"] := Samples.frame12 ]} /\
   faces_files r2.1
     = {[ FACES_DIR ++ ["alice20240101120000.jpg"] := Samples.frame11 ]}) /\
  (let r := enroll_face (Samples.enroll_env None) (Some "../events/live")
              (Samples.globals_with Samples.frame12) Samples.no_corpus in
   r.2 = Ret (success "../events/live20240101120000.jpg", 200%nat) /\
   faces_files r.1
     = {[ ["home"; "pi"; "Security"; "pi_patrol"; "events";
           "live20240101120000.jpg"] := Samples.frame12 ]}).
Proof. repeat split; by vm_compute. Qed.

End EnrolmentClaims.

(** A write that reports failure through its return value raises nothing:
    [capture_frame] passes over the returned flag and still publishes and
    returns the frame. *)
Example capture_frame_write_flag_ignored :
  let env := Samples.capture_env (Ret Samples.frame12) Samples.cv_hit in
  let env' := {|
    PiPatrol.capture_array := PiPatrol.capture_array env;
    PiPatrol.cvtColor_RGB2BGR := PiPatrol.cvtColor_RGB2BGR env;
    PiPatrol.cv := PiPatrol.cv env;
    PiPatrol.rectangle := PiPatrol.rectangle env;
    PiPatrol.putText := PiPatrol.putText env;
    PiPatrol.mkdir_EVENTS_DIR := PiPatrol.mkdir_EVENTS_DIR env;
    PiPatrol.imwrite_live_path := fun _ => Ret false;
    PiPatrol.publish := PiPatrol.publish env
  |} in
  (PiPatrol.capture_frame env' (Samples.state (Some PiPatrol.Camera) 0%Q)).2
  = Ret (Some Samples.frame12).
Proof. reflexivity. Qed.

(** * Further properties *)

(** ** The label mapping *)

Section LabelMappingFacts.

Import LBPHRecognizer.

(** The entry of [listing] that [enumerate_from i] pairs with the index
    [k]. *)
Lemma enumerate_from_fold_lookup (l : list DirEntry) (i : Z)
    (m : gmap Z string) (k : Z) :
  foldl load_step m (enumerate_from i l) !! k =
    match (if bool_decide (i <= k) then l !! Z.to_nat (k - i) else None) with
    | Some e => if is_dir e then Some (entry_name e) else m !! k
    | None => m !! k
    end.
Proof.
  revert i m. induction l as [|a l IH]; intros i m; simpl.
  - by case_bool_decide.
  - rewrite IH. clear IH.
    destruct (decide (k = i)) as [->|Hne].
    + rewrite bool_decide_eq_false_2 by lia.
      rewrite bool_decide_eq_true_2 by lia.
      replace (Z.to_nat (i - i)) with 0%nat by lia. simpl.
      destruct (is_dir a); [by rewrite lookup_insert_eq | done].
    + assert (Hm : load_step m (i, a) !! k = m !! k).
      { simpl. destruct (is_dir a); [by rewrite lookup_insert_ne | done]. }
      case_bool_decide as H1; case_bool_decide as H2; try lia.
      * replace (Z.to_nat (k - i)) with (S (Z.to_nat (k - (i + 1)))) by lia.
        simpl. destruct (l !! Z.to_nat (k - (i + 1))) as [e|]; [|done].
        by destruct (is_dir e).
      * done.
Qed.

(** The mapping [_load_labels] rebuilds, key by key. *)
Lemma load_labels_at (listing : list DirEntry) (k : nat) :
  _load_labels listing !! Z.of_nat k =
    match listing !! k with
    | Some e => if is_dir e then Some (entry_name e) else None
    | None => None
    end.
Proof.
  unfold _load_labels, enumerate. rewrite enumerate_from_fold_lookup.
  rewrite bool_decide_eq_true_2 by lia.
  rewrite Z.sub_0_r, Nat2Z.id.
  destruct (listing !! k) as [e|]; [|done]. by destruct (is_dir e).
Qed.

Lemma load_labels_negative (listing : list DirEntry) (i : Z) :
  i < 0 -> _load_labels listing !! i = None.
Proof.
  intros Hi. unfold _load_labels, enumerate.
  rewrite enumerate_from_fold_lookup.
  by rewrite bool_decide_eq_false_2 by lia.
Qed.

(** X1.  [_load_labels] maps an index to a name exactly when the entry of
    the listing at that index is a directory of that name: the keys are
    the positions of the directories among all the entries. *)
Theorem load_labels_lookup (listing : list DirEntry) (i : Z) (name : string) :
  _load_labels listing !! i = Some name <->
  0 <= i /\
  exists e, listing !! Z.to_nat i = Some e /\
            is_dir e = true /\ entry_name e = name.
Proof.
  destruct (decide (i < 0)) as [Hneg|Hpos].
  - rewrite load_labels_negative by done. split; [done|]. intros [? _]. lia.
  - rewrite <- (Z2Nat.id i) at 1 by lia. rewrite load_labels_at.
    destruct (listing !! Z.to_nat i) as [e|] eqn:He.
    + destruct (is_dir e) eqn:Hd.
      * split.
        -- intros [= <-]. split; [lia|]. by exists e.
        -- by intros (_ & e' & [= <-] & _ & <-).
      * split; [done|]. intros (_ & e' & [= <-] & Hd' & _). congruence.
    + split; [done|]. by intros (_ & e' & ? & _).
Qed.

Lemma train_loop_filter cv listing label_id self_labels faces labels :
  train_loop cv listing label_id self_labels faces labels
  = train_loop cv (filter (fun e => is_dir e = true) listing) label_id
      self_labels faces labels.
Proof.
  revert label_id self_labels faces labels.
  induction listing as [|e l IH]; intros label_id self_labels faces labels;
    [done|].
  rewrite filter_cons. destruct (decide (is_dir e = true)) as [Hd|Hd]; simpl.
  - rewrite Hd. simpl.
    destruct (train_images cv (jpgs e) label_id faces labels)
      as [[faces' labels']|err]; [apply IH | done].
  - apply not_true_is_false in Hd. rewrite Hd. simpl. apply IH.
Qed.

Lemma filter_dirs_all (listing : list DirEntry) :
  Forall (fun e => is_dir e = true) (filter (fun e => is_dir e = true) listing).
Proof.
  apply Forall_forall. intros e He.
  by apply list_elem_of_filter in He as [? _].
Qed.

(** The mapping a returning [train] has built, key by key. *)
Lemma train_labels_at cv (listing : list DirEntry) out (k : nat) :
  (train cv listing).2 = Ret out ->
  (train cv listing).1 !! Z.of_nat k
    = entry_name <$> filter (fun e => is_dir e = true) listing !! k.
Proof.
  intros H. unfold train in *. rewrite train_loop_filter in H |- *.
  fold (train cv (filter (fun e => is_dir e = true) listing)) in H |- *.
  rewrite (train_load_labels_dirs cv _ out (filter_dirs_all listing) H).
  rewrite load_labels_at.
  destruct (filter _ listing !! k) as [e|] eqn:He; simpl; [|done].
  assert (Hd : is_dir e = true).
  { apply list_elem_of_lookup_2 in He.
    by apply list_elem_of_filter in He as [? _]. }
  by rewrite Hd.
Qed.

Lemma train_labels_negative cv (listing : list DirEntry) out (i : Z) :
  (train cv listing).2 = Ret out -> i < 0 -> (train cv listing).1 !! i = None.
Proof.
  intros H Hi. unfold train in *. rewrite train_loop_filter in H |- *.
  fold (train cv (filter (fun e => is_dir e = true) listing)) in H |- *.
  rewrite (train_load_labels_dirs cv _ out (filter_dirs_all listing) H).
  by apply load_labels_negative.
Qed.

(** X2.  [train] passes over every entry that is not a directory (the
    model file, images enrolled into the corpus directory itself): it
    builds the same mapping, takes the same samples and ends the same way
    as on the listing with those entries removed. *)
Theorem train_ignores_files cv (listing : list DirEntry) :
  train cv listing = train cv (filter (fun e => is_dir e = true) listing).
Proof. unfold train. by rewrite train_loop_filter. Qed.

(** X3.  When [train] returns, the mapping it has built numbers the
    directories of the listing 0, 1, 2, ... in listing order: it is what
    [_load_labels] rebuilds from the listing with the non-directories
    removed, and its key for the [k]-th directory is [k]. *)
Theorem train_labels_directories cv (listing : list DirEntry) out :
  (train cv listing).2 = Ret out ->
  (train cv listing).1
    = _load_labels (filter (fun e => is_dir e = true) listing) /\
  forall k : nat,
    (train cv listing).1 !! Z.of_nat k
      = entry_name <$> filter (fun e => is_dir e = true) listing !! k.
Proof.
  intros H. split; [|intros k; by apply (train_labels_at cv listing out)].
  unfold train in *. rewrite train_loop_filter in H |- *.
  fold (train cv (filter (fun e => is_dir e = true) listing)) in H |- *.
  by apply (train_load_labels_dirs cv _ out (filter_dirs_all listing)).
Qed.

Lemma train_labels_directories_witness :
  (train Samples.cv_hit Samples.listing_with_model).1
    = _load_labels
        (filter (fun e => is_dir e = true) Samples.listing_with_model) /\
  forall k : nat,
    (train Samples.cv_hit Samples.listing_with_model).1 !! Z.of_nat k
      = entry_name <$>
          filter (fun e => is_dir e = true) Samples.listing_with_model !! k.
Proof.
  apply (train_labels_directories Samples.cv_hit Samples.listing_with_model
           (Some ([ [[100; 200]]; [[100; 200]] ], [0; 1]))).
  reflexivity.
Defined.

(** The two mappings agree when every directory comes before every other
    entry, and only then. *)
Lemma train_load_agree_iff cv (listing : list DirEntry) out :
  (train cv listing).2 = Ret out ->
  (train cv listing).1 = _load_labels listing <->
  exists n, Forall (fun e => is_dir e = true) (take n listing) /\
            Forall (fun e => is_dir e = false) (drop n listing).
Proof.
  intros H. set (D := filter (fun e => is_dir e = true) listing).
  split.
  - intros Heq. exists (length D). split.
    + apply Forall_lookup. intros k e He.
      apply lookup_take_Some in He as [He Hk].
      destruct (lookup_lt_is_Some_2 D k Hk) as [d Hd].
      pose proof (train_labels_at cv listing out k H) as Ht.
      fold D in Ht. rewrite Hd, Heq, load_labels_at, He in Ht. simpl in Ht.
      by destruct (is_dir e).
    + apply Forall_lookup. intros k e He. rewrite lookup_drop in He.
      destruct (is_dir e) eqn:Hdir; [|done]. exfalso.
      pose proof (train_labels_at cv listing out (length D + k) H) as Ht.
      fold D in Ht. rewrite Heq, load_labels_at, He, Hdir in Ht.
      rewrite (lookup_ge_None_2 D) in Ht by lia. done.
  - intros (n & Hdirs & Hfiles).
    assert (HD : D = take n listing).
    { subst D. rewrite <- (take_drop n listing) at 1. rewrite filter_app.
      assert (H1 : filter (fun e => is_dir e = true) (take n listing)
                   = take n listing).
      { clear -Hdirs. induction Hdirs as [|e l He _ IH]; [done|].
        rewrite filter_cons. destruct (decide _); [by rewrite IH | done]. }
      assert (H2 : filter (fun e => is_dir e = true) (drop n listing) = []).
      { clear -Hfiles. induction Hfiles as [|e l He _ IH]; [done|].
        rewrite filter_cons. destruct (decide _); [congruence | done]. }
      by rewrite H1, H2, app_nil_r. }
    apply map_eq. intros i. destruct (decide (i < 0)) as [Hneg|Hpos].
    + rewrite (train_labels_negative cv listing out i H Hneg).
      by rewrite load_labels_negative.
    + rewrite <- (Z2Nat.id i) by lia.
      rewrite (train_labels_at cv listing out _ H), load_labels_at.
      fold D. rewrite HD.
      destruct (decide (Z.to_nat i < n)%nat) as [Hlt|Hge].
      * rewrite lookup_take_lt by done.
        destruct (listing !! Z.to_nat i) as [e|] eqn:He; simpl; [|done].
        assert (Hd : is_dir e = true).
        { rewrite Forall_lookup in Hdirs. apply (Hdirs (Z.to_nat i)).
          by rewrite lookup_take_lt. }
        by rewrite Hd.
      * rewrite lookup_take_ge by lia. simpl.
        destruct (listing !! Z.to_nat i) as [e|] eqn:He; [|done].
        assert (Hd : is_dir e = false).
        { rewrite Forall_lookup in Hfiles.
          apply (Hfiles (Z.to_nat i - n)%nat).
          rewrite lookup_drop. rewrite <- He. f_equal. lia. }
        by rewrite Hd.
Qed.

(** X4.  The method [_init_] on a corpus directory whose training run
    returns.  Without an entry "model.yml" it trains, and its labels are
    those of [train].  With such an entry and a model that can be read it
    returns with the labels rebuilt by [_load_labels], and these are the
    labels [train] builds on the same directory exactly when every
    directory of the listing comes before every other entry. *)
Theorem init_paths_agree_iff cv read_model (listing : list DirEntry) out :
  (train cv listing).2 = Ret out ->
  (model_exists listing = false ->
   _init_ cv read_model listing = ((train cv listing).1, Ret tt)) /\
  (model_exists listing = true -> read_model = Ret tt ->
   (_init_ cv read_model listing).2 = Ret tt /\
   ((_init_ cv read_model listing).1 = (train cv listing).1 <->
    exists n, Forall (fun e => is_dir e = true) (take n listing) /\
              Forall (fun e => is_dir e = false) (drop n listing))).
Proof.
  intros Ht. unfold _init_. split.
  - intros ->. destruct (train cv listing) as [m r]. simpl in *. by subst r.
  - intros -> ->. simpl. split; [done|].
    rewrite <- (train_load_agree_iff cv listing out Ht).
    split; intros Heq; by rewrite Heq.
Qed.

Lemma init_paths_agree_iff_witness :
  (_init_ Samples.cv_hit (Ret tt)
     [Samples.folder "alice"; Samples.file "model.yml"]).1
  = (train Samples.cv_hit
       [Samples.folder "alice"; Samples.file "model.yml"]).1 /\
  (_init_ Samples.cv_hit (Ret tt) Samples.listing_with_model).1
  <> (train Samples.cv_hit Samples.listing_with_model).1.
Proof.
  split.
  - apply (init_paths_agree_iff Samples.cv_hit (Ret tt)
             [Samples.folder "alice"; Samples.file "model.yml"]
             (Some ([[[100; 200]]], [0])));
      [reflexivity | reflexivity | reflexivity |].
    exists 1%nat. split; repeat constructor.
  - intros Heq.
    apply (init_paths_agree_iff Samples.cv_hit (Ret tt)
             Samples.listing_with_model
             (Some ([[[100; 200]]; [[100; 200]]], [0; 1])))
      in Heq as (n & Hdirs & Hfiles);
      [|reflexivity | reflexivity | reflexivity].
    destruct n as [|n].
    + inversion Hfiles as [|? ? _ Hrest]. inversion Hrest as [|? ? Hd _].
      discriminate Hd.
    + inversion Hdirs as [|? ? Hd _]. discriminate Hd.
Defined.

End LabelMappingFacts.

(** ** The training set *)

Section TrainingSet.

Import LBPHRecognizer.

Lemma train_images_inv cv imgs label_id faces labels faces' labels' :
  train_images cv imgs label_id faces labels = Ret (faces', labels') ->
  exists n : nat,
    (n <= length imgs)%nat /\
    labels' = labels ++ replicate n label_id /\
    length faces' = (length faces + n)%nat.
Proof.
  revert faces labels. induction imgs as [|[img|] imgs IH];
    intros faces labels H; simpl in H.
  - injection H as <- <-. exists 0%nat. simpl.
    rewrite app_nil_r. split; [lia|]. split; [done | lia].
  - apply bind_Ret in H as (face & Hf & H).
    apply IH in H as (n & Hn & -> & Hlen). exists (S n).
    split; [simpl; lia|]. split.
    + by rewrite <- app_assoc.
    + rewrite Hlen, length_app. simpl. lia.
  - apply IH in H as (n & Hn & -> & Hlen). exists n.
    split; [simpl; lia | done].
Qed.

Lemma train_loop_inv cv listing label_id m faces labels m' faces' labels' :
  train_loop cv listing label_id m faces labels = (m', Ret (faces', labels')) ->
  length faces = length labels ->
  Forall (fun i => is_Some (m !! i)) labels ->
  length faces' = length labels' /\
  Forall (fun i => is_Some (m' !! i)) labels' /\
  (forall i, is_Some (m !! i) -> is_Some (m' !! i)) /\
  (length faces <= length faces')%nat.
Proof.
  revert label_id m faces labels.
  induction listing as [|e l IH]; intros label_id m faces labels H Hlen Hall;
    simpl in H.
  - injection H as <- <- <-. done.
  - destruct (is_dir e); simpl in H; [|by apply IH in H].
    destruct (train_images cv (jpgs e) label_id faces labels)
      as [[faces1 labels1]|err] eqn:Hi; [|done].
    apply train_images_inv in Hi as (n & _ & -> & Hlen1).
    apply IH in H as (H1 & H2 & H3 & H4).
    + split; [done|]. split; [done|]. split; [|lia].
      intros i Hi. apply H3. rewrite lookup_insert_is_Some'. tauto.
    + rewrite Hlen1, length_app, length_replicate. lia.
    + apply Forall_app. split.
      * eapply Forall_impl; [exact Hall|]. simpl. intros i Hi.
        rewrite lookup_insert_is_Some'. tauto.
      * apply Forall_replicate. rewrite lookup_insert_is_Some'. tauto.
Qed.

(** X5.  When [train] fits the classifier, it hands over at least one
    sample, as many label ids as samples, and only label ids that the
    mapping it has built gives a name to. *)
Theorem train_samples_labelled cv (listing : list DirEntry) faces labels :
  (train cv listing).2 = Ret (Some (faces, labels)) ->
  faces <> [] /\
  length faces = length labels /\
  Forall (fun i => is_Some ((train cv listing).1 !! i)) labels.
Proof.
  unfold train. destruct (train_loop cv listing 0 ∅ [] []) as [m r] eqn:Ht.
  simpl. destruct r as [[faces' labels']|e]; simpl; [|done].
  destruct faces' as [|f rest] eqn:Hf; simpl; [done|].
  intros [= <- <-].
  apply train_loop_inv in Ht as (H1 & H2 & _); [|done|constructor].
  done.
Qed.

Lemma train_samples_labelled_witness :
  [ [[100; 200]]; [[100; 200]] ] <> ([] : list Gray) /\
  length [ [[100; 200]]; [[100; 200]] ] = length [0; 1] /\
  Forall (fun i =>
    is_Some ((train Samples.cv_hit Samples.listing_with_model).1 !! i))
    [0; 1].
Proof.
  apply (train_samples_labelled Samples.cv_hit Samples.listing_with_model).
  reflexivity.
Defined.

End TrainingSet.

(** ** What the recogniser reports *)

Section RecognizerFacts.

Import LBPHRecognizer.

Lemma recognize_loop_raises cv labels gray faces acc :
  raises (recognize_loop cv labels gray faces acc) <->
  Exists (fun b => raises (roi_of cv gray b)) faces.
Proof.
  revert acc. induction faces as [|b faces IH]; intros acc; simpl.
  - split; [done|]. intros H. inversion H.
  - rewrite Exists_cons. destruct (roi_of cv gray b) as [roi|e]; simpl.
    + destruct (classify cv labels roi) as [name conf]. rewrite IH. tauto.
    + tauto.
Qed.

(** X6.  The list [recognize_faces] returns has one entry for each
    rectangle the cascade returned, in the same order and carrying that
    rectangle.  The entry is made from the region [predict] was given for
    the rectangle: when [predict] returned a label id and a distance for
    that region, the confidence is that distance and the label is
    ["Unknown"] or the name the label mapping holds for that id; when
    [predict] raised on that region, the label is ["Unknown"] and the
    confidence is 100. *)
Theorem recognize_faces_names cv labels frame results :
  recognize_faces cv labels frame = Ret results ->
  exists gray faces,
    equalised cv frame = Ret gray /\
    detectMultiScale cv gray = Ret faces /\
    Forall2 (fun b d =>
      det_box d = b /\
      exists roi,
        roi_of cv gray b = Ret roi /\
        (forall label_id conf,
           predict cv roi = Ret (label_id, conf) ->
           det_conf d = conf /\
           (det_name d = "Unknown" \/
            labels !! label_id = Some (det_name d))) /\
        (raises (predict cv roi) ->
         det_name d = "Unknown" /\ det_conf d = 100%Q))
      faces results.
Proof.
  intros H. apply recognize_faces_inv in H as (gray & faces & Hg & Hf & Hall).
  exists gray, faces. split; [done|]. split; [done|]. clear Hg Hf.
  induction Hall as [|b d faces results (roi & Hroi & ->) _ IH];
    [constructor|].
  constructor; [|done].
  split; [done|]. exists roi. split; [done|].
  unfold det_name, det_conf, classify. simpl.
  destruct (predict cv roi) as [[label_id conf]|e] eqn:Hp; simpl.
  - split; [|done]. intros label_id' conf' [= <- <-].
    destruct (float_lt conf Config.CONFIDENCE_THRESHOLD); simpl.
    + split; [done|].
      destruct (labels !! label_id) as [name|] eqn:Hl; simpl;
        [by right | by left].
    + split; [done | by left].
  - split; [done|]. by intros _.
Qed.

Lemma recognize_faces_names_witness :
  exists gray faces,
    equalised Samples.cv_hit Samples.frame12 = Ret gray /\
    detectMultiScale Samples.cv_hit gray = Ret faces /\
    Forall2 (fun b d =>
      det_box d = b /\
      exists roi,
        roi_of Samples.cv_hit gray b = Ret roi /\
        (forall label_id conf,
           predict Samples.cv_hit roi = Ret (label_id, conf) ->
           det_conf d = conf /\
           (det_name d = "Unknown" \/
            ({[ 0 := "alice" ]} : gmap Z string) !! label_id
              = Some (det_name d))) /\
        (raises (predict Samples.cv_hit roi) ->
         det_name d = "Unknown" /\ det_conf d = 100%Q))
      faces [("alice", 45%Q, Samples.box11)].
Proof.
  apply (recognize_faces_names Samples.cv_hit {[ 0 := "alice" ]}
           Samples.frame12).
  reflexivity.
Defined.

(** X7.  [recognize_faces] raises exactly when a call outside its [try]
    raises: the grayscale conversion or CLAHE, the cascade, or the resize
    of one of the detected rectangles; it then returns no partial list. *)
Theorem recognize_faces_raises_iff cv labels frame :
  raises (recognize_faces cv labels frame) <->
  raises (equalised cv frame) \/
  exists gray,
    equalised cv frame = Ret gray /\
    (raises (detectMultiScale cv gray) \/
     exists faces,
       detectMultiScale cv gray = Ret faces /\
       Exists (fun b => raises (roi_of cv gray b)) faces).
Proof.
  unfold recognize_faces.
  destruct (equalised cv frame) as [gray|e]; simpl.
  - destruct (detectMultiScale cv gray) as [faces|e] eqn:Hd; simpl.
    + rewrite recognize_loop_raises. split.
      * intros H. right. exists gray. split; [done|]. right.
        exists faces. by rewrite Hd.
      * intros [[]|(gray' & [= <-] & [Hr|(faces' & Hf & H)])].
        -- by rewrite Hd in Hr.
        -- rewrite Hd in Hf. by injection Hf as <-.
    + split; [|done]. intros _. right. exists gray. split; [done|].
      left. by rewrite Hd.
  - split; [by left | done].
Qed.

End RecognizerFacts.

(** ** Regions *)

Section Regions.

Lemma slice_lookup {A} (lo hi : nat) (l : list A) (j : nat) :
  (j < hi - lo)%nat -> slice lo hi l !! j = l !! (lo + j)%nat.
Proof.
  intros Hj. unfold slice. rewrite lookup_take_lt by done.
  by rewrite lookup_drop.
Qed.

Lemma slice_length {A} (lo hi : nat) (l : list A) :
  length (slice lo hi l) = ((hi - lo) `min` (length l - lo))%nat.
Proof. unfold slice. by rewrite length_take, length_drop. Qed.

Lemma map_as_fmap {A B} (f : A -> B) (l : list A) : map f l = f <$> l.
Proof. induction l as [|a l IH]; simpl; [done | by rewrite IH]. Qed.

(** X8.  The region cut for the rectangle (x, y, w, h) has at most [h]
    rows of at most [w] pixels, exactly [h] by [w] when the rectangle lies
    inside the image, and its pixel (i, j) is the pixel (y + i, x + j) of
    the image. *)
Theorem crop_pixels {A} (m : matrix A) (x y w h : nat) :
  length (crop m (x, y, w, h)) = (h `min` (length m - y))%nat /\
  Forall (fun row => (length row <= w)%nat) (crop m (x, y, w, h)) /\
  (forall i j : nat,
     (i < h)%nat -> (j < w)%nat ->
     crop m (x, y, w, h) !! i ≫= (fun row => row !! j)
     = m !! (y + i)%nat ≫= (fun row => row !! (x + j)%nat)).
Proof.
  unfold crop. rewrite map_as_fmap. split; [|split].
  - rewrite length_fmap, slice_length. f_equal. lia.
  - apply Forall_fmap, Forall_forall. intros row _. simpl.
    rewrite slice_length. lia.
  - intros i j Hi Hj. unfold matrix in *. rewrite list_lookup_fmap.
    rewrite slice_lookup by lia.
    destruct (m !! (y + i)%nat) as [row|]; simpl; [|done].
    apply slice_lookup. lia.
Qed.

End Regions.

(** ** The camera *)

Section CameraFacts.

Import PiPatrol.

(** X9.  [wake_camera] leaves an active camera alone and otherwise ends
    with a camera exactly when the device opens; [stop_camera] always ends
    without a camera, whether or not closing the device raises, and does
    nothing when there is none; neither touches anything but the camera
    handle. *)
Theorem camera_lifecycle open_camera close_camera close_again st :
  (is_Some (camera (self st)) -> wake_camera open_camera st = st) /\
  (camera (self st) = None ->
   camera (self (wake_camera open_camera st))
     = match open_camera with Ret cam => Some cam | Raise _ => None end) /\
  camera (self (stop_camera close_camera st)) = None /\
  (camera (self st) = None -> stop_camera close_camera st = st) /\
  stop_camera close_again (stop_camera close_camera st)
    = stop_camera close_camera st /\
  (forall st', st' = wake_camera open_camera st \/
               st' = stop_camera close_camera st ->
     last_motion_time (self st') = last_motion_time (self st) /\
     labels (self st') = labels (self st) /\
     web st' = web st /\ db st' = db st).
Proof.
  unfold wake_camera, initialize_camera, stop_camera.
  split; [by intros [c ->]|].
  split; [intros ->; by destruct open_camera|].
  split; [by destruct (camera (self st)) eqn:Hc|].
  split; [by intros ->|].
  split; [by destruct (camera (self st)) eqn:Hc; simpl; rewrite ?Hc|].
  intros st' [-> | ->]; destruct (camera (self st)); try done.
  by destruct open_camera.
Qed.

Lemma camera_lifecycle_witness :
  wake_camera (Raise (Exception "camera busy"))
    (Samples.state (Some Camera) 0%Q) = Samples.state (Some Camera) 0%Q /\
  camera (self (wake_camera (Ret Camera) (Samples.state None 0%Q)))
    = Some Camera.
Proof.
  split.
  - apply (camera_lifecycle (Raise (Exception "camera busy")) (Ret tt)
             (Ret tt) (Samples.state (Some Camera) 0%Q)).
    by eexists.
  - apply (camera_lifecycle (Ret Camera) (Ret tt) (Ret tt)
             (Samples.state None 0%Q)).
    reflexivity.
Defined.

End CameraFacts.

(** ** Publishing a frame *)

Section PublishFacts.

Import WebServer.

(** X10.  [set_frame] always replaces the current frame and the label (by
    ["Unknown"] when none is given) and never touches the preview flag.
    The encoded JPEG and the time of the last frame are replaced when
    [imencode] reports success and are left as they were when it reports
    failure or raises; the call raises exactly when [imencode] raises or
    the write of the live file raises after a successful encoding. *)
Theorem set_frame_publishes env frame label g :
  let g' := (set_frame env frame label g).1 in
  current_frame g' = Some frame /\
  current_label g' = default "Unknown" label /\
  live_preview_enabled g' = live_preview_enabled g /\
  (forall buf,
     imencode env frame = Ret (true, buf) ->
     encoded_jpeg g' = Some buf /\ last_frame_time g' = time_time env) /\
  (raises (imencode env frame) \/
   (exists buf, imencode env frame = Ret (false, buf)) ->
   encoded_jpeg g' = encoded_jpeg g /\
   last_frame_time g' = last_frame_time g) /\
  (raises (set_frame env frame label g).2 <->
   raises (imencode env frame) \/
   exists buf, imencode env frame = Ret (true, buf) /\
               raises (imwrite_LIVE_PATH env frame)).
Proof.
  unfold set_frame.
  destruct (imencode env frame) as [[[] buf]|e] eqn:Hi; simpl;
    (split; [done|]); (split; [done|]); (split; [done|]).
  - split; [by intros buf' [= <-]|].
    split; [intros [[]|(buf' & [=])]|].
    destruct (imwrite_LIVE_PATH env frame) as [b|e]; simpl.
    + split; [done|]. by intros [[]|(buf' & _ & [])].
    + split; [|done]. intros _. right. by exists buf.
  - split; [by intros buf' [=]|].
    split; [done|]. split; [done|]. by intros [[]|(buf' & [=] & _)].
  - split; [by intros buf' [=]|].
    split; [done|]. split; [by left | done].
Qed.

Lemma set_frame_publishes_witness :
  encoded_jpeg
    (set_frame Samples.set_frame_env Samples.frame12 (Some "alice") initial).1
    = Some "JPEG" /\
  last_frame_time
    (set_frame Samples.set_frame_env Samples.frame12 (Some "alice") initial).1
    = 1000%Q.
Proof.
  apply (set_frame_publishes Samples.set_frame_env Samples.frame12
           (Some "alice") initial).
  reflexivity.
Defined.

End PublishFacts.

(** ** The passes of the motion loop *)

Section LoopFacts.

Import LBPHRecognizer PiPatrol Database.

Lemma log_event_rows env ty path person t :
  log_event env ty path person t = t \/
  rows (log_event env ty path person t)
    = rows t ++ [{| id := next_rowid t; timestamp := strftime_now env;
                    event_type := ty; file_path := path;
                    person_name := person |}] /\
  next_rowid t <= MAX_ROWID.
Proof.
  unfold log_event. destruct (connect env) as [[]|e]; simpl; [|by left].
  unfold insert. case_bool_decide as Hle; simpl; [|by left].
  destruct (commit env) as [[]|e]; simpl; [|by left].
  by right.
Qed.

Lemma log_event_done env ty path person t :
  returns (connect env) -> returns (commit env) ->
  next_rowid t <= MAX_ROWID ->
  log_event env ty path person t
    = {| rows := rows t ++ [{| id := next_rowid t;
                               timestamp := strftime_now env;
                               event_type := ty; file_path := path;
                               person_name := person |}];
         seq := next_rowid t |}.
Proof.
  intros Hc Hm Hle. unfold log_event.
  destruct (connect env) as [[]|e]; [|done]. simpl.
  unfold insert. rewrite bool_decide_eq_true_2 by done. simpl.
  by destruct (commit env) as [[]|e].
Qed.

Lemma capture_frame_flag env st :
  WebServer.live_preview_enabled (web (capture_frame env st).1)
    = WebServer.live_preview_enabled (web st).
Proof.
  unfold capture_frame. destruct (camera (self st)); [|done].
  pose proof (capture_try_web env st) as H.
  destruct (capture_try env st) as [st' r]. simpl in *.
  destruct (grab_and_annotate env st) as [frame|e].
  - rewrite H. apply set_frame_flag.
  - by rewrite H.
Qed.

(** The state a pass with motion hands to [capture_frame]. *)
Lemma on_motion_effects tenv st :
  let st1 := wake_camera (Loop.open_camera tenv)
               (set_last_motion_time (Loop.time_motion tenv) st) in
  let st' := (Loop.on_motion tenv st).1 in
  self st' = self st1 /\
  WebServer.live_preview_enabled (web st')
    = WebServer.live_preview_enabled (web st) /\
  (db st' = db st \/
   exists path person,
     db st' = log_event (Loop.log tenv) "motion_detected" (Some path)
                (Some person) (db st)).
Proof.
  intros st1 st'. subst st'. unfold Loop.on_motion. fold st1.
  assert (Hs1 : WebServer.live_preview_enabled (web st1)
                = WebServer.live_preview_enabled (web st) /\ db st1 = db st).
  { subst st1. unfold wake_camera, initialize_camera. simpl.
    destruct (camera (self st)); [done|].
    by destruct (Loop.open_camera tenv). }
  destruct Hs1 as [Hflag1 Hdb1].
  pose proof (capture_frame_self (Loop.capture tenv) st1) as [Hself Hdb].
  pose proof (capture_frame_flag (Loop.capture tenv) st1) as Hflag.
  destruct (capture_frame (Loop.capture tenv) st1) as [st2 r]. simpl in *.
  assert (Hbase : self st2 = self st1 /\
                  WebServer.live_preview_enabled (web st2)
                    = WebServer.live_preview_enabled (web st) /\
                  (db st2 = db st \/
                   exists path person,
                     db st2 = log_event (Loop.log tenv) "motion_detected"
                                (Some path) (Some person) (db st))).
  { split; [done|]. split; [congruence|]. left. congruence. }
  destruct r as [[frame|]|e]; [|done|done].
  destruct (recognize_faces _ _ _) as [detections|e]; [|done].
  destruct (Loop.imwrite_event _ _ _) as [b|e]; [|done].
  simpl. split; [done|]. split; [congruence|].
  right. eexists _, _. by rewrite Hdb, Hdb1.
Qed.

Lemma tick_effects tenv st :
  labels (self (Loop.tick tenv st).1) = labels (self st) /\
  WebServer.live_preview_enabled (web (Loop.tick tenv st).1)
    = WebServer.live_preview_enabled (web st) /\
  exists suffix,
    rows (db (Loop.tick tenv st).1) = rows (db st) ++ suffix /\
    (length suffix <= 1)%nat /\
    Forall (fun e => event_type e = "motion_detected") suffix.
Proof.
  unfold Loop.tick. destruct (Loop.motion tenv).
  - destruct (on_motion_effects tenv st) as (Hself & Hflag & Hdb).
    split.
    { rewrite Hself. unfold wake_camera, initialize_camera. simpl.
      destruct (camera (self st)); [done|].
      by destruct (Loop.open_camera tenv). }
    split; [done|].
    destruct Hdb as [-> | (path & person & ->)].
    + exists []. rewrite app_nil_r. split; [done|]. split; [simpl; lia|done].
    + destruct (log_event_rows (Loop.log tenv) "motion_detected" (Some path)
                  (Some person) (db st)) as [-> | [-> _]].
      * exists []. rewrite app_nil_r.
        split; [done|]. split; [simpl; lia|done].
      * eexists. split; [done|]. split; [simpl; lia|].
        by repeat constructor.
  - simpl. unfold Loop.on_idle, stop_camera.
    assert (H : forall st0 : State,
              (st0 = st \/ st0 = set_camera None st) ->
              labels (self st0) = labels (self st) /\
              WebServer.live_preview_enabled (web st0)
                = WebServer.live_preview_enabled (web st) /\
              exists suffix,
                rows (db st0) = rows (db st) ++ suffix /\
                (length suffix <= 1)%nat /\
                Forall (fun e => event_type e = "motion_detected") suffix).
    { intros st0 [-> | ->]; (split; [done|]); (split; [done|]);
        exists []; rewrite app_nil_r; simpl;
        (split; [done|]); (split; [lia | done]). }
    apply H. destruct (camera (self st)); [|by left].
    destruct (float_lt _ _); [by right | by left].
Qed.

(** X11.  No pass of the loop changes the label mapping or the preview
    flag, and a pass adds at most one row, of type "motion_detected", after
    the rows the store already holds; over a run of passes the store grows
    by at most one row per pass and keeps every earlier row in place. *)
Theorem passes_preserve tenv envs st :
  (labels (self (Loop.tick tenv st).1) = labels (self st) /\
   WebServer.live_preview_enabled (web (Loop.tick tenv st).1)
     = WebServer.live_preview_enabled (web st) /\
   exists suffix,
     rows (db (Loop.tick tenv st).1) = rows (db st) ++ suffix /\
     (length suffix <= 1)%nat /\
     Forall (fun e => event_type e = "motion_detected") suffix) /\
  (labels (self (Loop.run envs st).1) = labels (self st) /\
   WebServer.live_preview_enabled (web (Loop.run envs st).1)
     = WebServer.live_preview_enabled (web st) /\
   exists suffix,
     rows (db (Loop.run envs st).1) = rows (db st) ++ suffix /\
     (length suffix <= length envs)%nat /\
     Forall (fun e => event_type e = "motion_detected") suffix).
Proof.
  split; [apply tick_effects|].
  revert st. induction envs as [|env envs IH]; intros st; simpl.
  - split; [done|]. split; [done|]. exists []. by rewrite app_nil_r.
  - destruct (tick_effects env st) as (Hl & Hf & s1 & Hr & Hn & Hty).
    destruct (Loop.tick env st) as [st1 r]. simpl in *.
    destruct r as [[]|e]; simpl.
    + destruct (IH st1) as (Hl2 & Hf2 & s2 & Hr2 & Hn2 & Hty2).
      split; [congruence|]. split; [congruence|].
      exists (s1 ++ s2). rewrite Hr2, Hr, app_assoc.
      split; [done|]. split; [rewrite length_app; lia|].
      by apply Forall_app.
    + split; [done|]. split; [done|]. exists s1.
      split; [done|]. split; [lia | done].
Qed.

End LoopFacts.

Section MotionPass.

Import LBPHRecognizer PiPatrol Database.

Lemma on_motion_captured tenv st st2 frame :
  capture_frame (Loop.capture tenv)
    (wake_camera (Loop.open_camera tenv)
       (set_last_motion_time (Loop.time_motion tenv) st))
    = (st2, Ret (Some frame)) ->
  Loop.on_motion tenv st =
    match recognize_faces (Loop.cv_run tenv) (labels (self st2)) frame with
    | Raise e => (st2, Raise e)
    | Ret detections =>
        let person := Loop.first_person detections in
        match Loop.imwrite_event tenv (Loop.snapshot_path tenv person) frame with
        | Raise e => (st2, Raise e)
        | Ret _ =>
            (set_db (log_event (Loop.log tenv) "motion_detected"
                       (Some (Loop.snapshot_path tenv person)) (Some person)
                       (db st2)) st2,
             Loop.thread_start tenv)
        end
    end.
Proof. intros H. unfold Loop.on_motion. by rewrite H. Qed.

(** X12.  A pass that reads motion, captures a frame, recognises faces in
    it and stores the event records exactly one new row: of type
    "motion_detected", naming the first detection (["Unknown"] when there
    is none), with the path of the snapshot, whose name is that person,
    an underscore, the clock in whole seconds and ".jpg"; the pass ends as
    the start of the recording thread ends. *)
Theorem motion_pass_records tenv st st2 frame detections :
  Loop.motion tenv = true ->
  capture_frame (Loop.capture tenv)
    (wake_camera (Loop.open_camera tenv)
       (set_last_motion_time (Loop.time_motion tenv) st))
    = (st2, Ret (Some frame)) ->
  recognize_faces (Loop.cv_run tenv) (labels (self st)) frame
    = Ret detections ->
  returns (Loop.imwrite_event tenv
             (Loop.snapshot_path tenv (Loop.first_person detections)) frame) ->
  returns (connect (Loop.log tenv)) ->
  returns (commit (Loop.log tenv)) ->
  next_rowid (db st) <= MAX_ROWID ->
  (Loop.tick tenv st).2 = Loop.thread_start tenv /\
  rows (db (Loop.tick tenv st).1)
    = rows (db st)
      ++ [{| id := next_rowid (db st);
             timestamp := strftime_now (Loop.log tenv);
             event_type := "motion_detected";
             file_path := Some (Loop.snapshot_path tenv (Loop.first_person detections));
             person_name := Some (Loop.first_person detections) |}] /\
  last_motion_time (self (Loop.tick tenv st).1) = Loop.time_motion tenv /\
  WebServer.current_frame (web (Loop.tick tenv st).1) = Some frame.
Proof.
  intros Hm Hcap Hrec Hw Hconn Hcommit Hle.
  unfold Loop.tick. rewrite Hm.
  rewrite (on_motion_captured tenv st st2 frame Hcap).
  set (st1 := wake_camera _ _) in Hcap.
  pose proof (capture_frame_self (Loop.capture tenv) st1) as [Hself Hdb].
  pose proof (capture_frame_published (Loop.capture tenv) st1 frame) as Hpub.
  rewrite Hcap in Hself, Hdb, Hpub. simpl in Hself, Hdb, Hpub.
  assert (Hlab : labels (self st2) = labels (self st)).
  { rewrite Hself. subst st1. unfold wake_camera, initialize_camera. simpl.
    destruct (camera (self st)); [done|].
    by destruct (Loop.open_camera tenv). }
  assert (Hdb1 : db st2 = db st).
  { rewrite Hdb. subst st1. unfold wake_camera, initialize_camera. simpl.
    destruct (camera (self st)); [done|].
    by destruct (Loop.open_camera tenv). }
  rewrite Hlab, Hrec. simpl.
  destruct (Loop.imwrite_event tenv _ frame) as [b|e]; [|done]. simpl.
  rewrite Hdb1.
  rewrite (log_event_done _ _ _ _ (db st) Hconn Hcommit Hle). simpl.
  split; [done|]. split; [done|]. split.
  - rewrite Hself. subst st1. unfold wake_camera, initialize_camera. simpl.
    destruct (camera (self st)); [done|].
    by destruct (Loop.open_camera tenv).
  - by destruct (Hpub eq_refl).
Qed.

Lemma motion_pass_records_witness :
  let tenv := Samples.tick_env true (Ret Samples.frame12) 1000%Q in
  let st := Samples.state None 0%Q in
  (Loop.tick tenv st).2 = Ret tt /\
  rows (db (Loop.tick tenv st).1)
    = [{| id := 1; timestamp := "2024-01-01 12:00:00";
          event_type := "motion_detected";
          file_path :=
            Some "/home/pi/Security/pi_patrol/events/alice_1000.jpg";
          person_name := Some "alice" |}] /\
  last_motion_time (self (Loop.tick tenv st).1) = 1000%Q /\
  WebServer.current_frame (web (Loop.tick tenv st).1)
    = Some Samples.frame12.
Proof.
  intros tenv st.
  eapply (motion_pass_records tenv st _ Samples.frame12
            [("alice", 45%Q, Samples.box11)]).
  - reflexivity.
  - reflexivity.
  - reflexivity.
  - exact I.
  - exact I.
  - exact I.
  - by vm_compute.
Defined.

(** X13.  A pass that reads motion sets [last_motion_time] to the clock
    and wakes the camera before anything else: after the pass the camera
    is the one it had, or, when it had none, the one just opened if the
    device opens; such a pass never powers the camera off. *)
Theorem motion_pass_wakes tenv st :
  Loop.motion tenv = true ->
  last_motion_time (self (Loop.tick tenv st).1) = Loop.time_motion tenv /\
  camera (self (Loop.tick tenv st).1)
    = match camera (self st) with
      | Some cam => Some cam
      | None =>
          match Loop.open_camera tenv with
          | Ret cam => Some cam
          | Raise _ => None
          end
      end.
Proof.
  intros Hm. unfold Loop.tick. rewrite Hm.
  destruct (on_motion_effects tenv st) as (Hself & _). rewrite Hself.
  unfold wake_camera, initialize_camera. simpl.
  destruct (camera (self st)) eqn:Hc; simpl; [by rewrite Hc|].
  by destruct (Loop.open_camera tenv).
Qed.

Lemma motion_pass_wakes_witness :
  last_motion_time
    (self (Loop.tick (Samples.tick_env true (Ret Samples.frame12) 1000%Q)
             (Samples.state None 0%Q)).1) = 1000%Q /\
  camera
    (self (Loop.tick (Samples.tick_env true (Ret Samples.frame12) 1000%Q)
             (Samples.state None 0%Q)).1) = Some Camera.
Proof.
  apply (motion_pass_wakes
           (Samples.tick_env true (Ret Samples.frame12) 1000%Q)
           (Samples.state None 0%Q)).
  reflexivity.
Defined.

(** X14.  A pass raises, and so ends the loop, only after motion was read
    and a frame was captured, and exactly when the second
    [recognize_faces], the write of the snapshot or the start of the
    recording thread raises. *)
Theorem pass_raises_iff tenv st :
  raises (Loop.tick tenv st).2 <->
  Loop.motion tenv = true /\
  exists st2 frame,
    capture_frame (Loop.capture tenv)
      (wake_camera (Loop.open_camera tenv)
         (set_last_motion_time (Loop.time_motion tenv) st))
      = (st2, Ret (Some frame)) /\
    (raises (recognize_faces (Loop.cv_run tenv) (labels (self st2)) frame) \/
     exists detections,
       recognize_faces (Loop.cv_run tenv) (labels (self st2)) frame
         = Ret detections /\
       (raises (Loop.imwrite_event tenv
                  (Loop.snapshot_path tenv (Loop.first_person detections)) frame) \/
        returns (Loop.imwrite_event tenv
                   (Loop.snapshot_path tenv (Loop.first_person detections)) frame) /\
        raises (Loop.thread_start tenv))).
Proof.
  unfold Loop.tick. destruct (Loop.motion tenv); simpl.
  2:{ split; [done|]. by intros [? _]. }
  set (st1 := wake_camera _ _).
  destruct (capture_frame (Loop.capture tenv) st1) as [st2 r] eqn:Hcap.
  pose proof (capture_frame_returns (Loop.capture tenv) st1) as Hret.
  rewrite Hcap in Hret. simpl in Hret.
  destruct r as [[frame|]|e].
  - rewrite (on_motion_captured tenv st st2 frame Hcap).
    destruct (recognize_faces _ _ frame) as [detections|e] eqn:Hrec; simpl.
    + destruct (Loop.imwrite_event tenv _ frame) as [b|e] eqn:Hw; simpl.
      * split.
        -- intros H. split; [done|]. exists st2, frame. split; [done|].
           right. exists detections. split; [done|]. right.
           by rewrite Hw.
        -- intros (_ & st2' & frame' & [= <- <-] & [Hr|(ds & Hds & Hc)]).
           ++ by rewrite Hrec in Hr.
           ++ rewrite Hrec in Hds. injection Hds as <-.
              rewrite Hw in Hc. by destruct Hc as [[]|[_ ?]].
      * split; [|done]. intros _. split; [done|].
        exists st2, frame. split; [done|]. right. exists detections.
        split; [done|]. left. by rewrite Hw.
    + split; [|done]. intros _. split; [done|]. exists st2, frame.
      split; [done|]. left. by rewrite Hrec.
  - unfold Loop.on_motion. fold st1. rewrite Hcap. simpl.
    split; [done|]. by intros (_ & ? & ? & [=] & _).
  - exfalso. destruct Hret as [?|(? & ? & _)]; done.
Qed.

(** X15.  A pass whose sensor read raises is a pass without motion: it
    ends normally, captures nothing, and leaves [last_motion_time], the web
    server's globals and the event store as they are. *)
Theorem sensor_failure_is_idle tenv st :
  Loop.gpio tenv = true ->
  raises (Loop.gpio_input_high tenv) ->
  Loop.motion tenv = false /\
  (Loop.tick tenv st).2 = Ret tt /\
  last_motion_time (self (Loop.tick tenv st).1) = last_motion_time (self st) /\
  web (Loop.tick tenv st).1 = web st /\
  db (Loop.tick tenv st).1 = db st.
Proof.
  intros Hg Hr.
  assert (Hm : Loop.motion tenv = false).
  { unfold Loop.motion, check_pir_motion. rewrite Hg. simpl.
    by destruct (Loop.gpio_input_high tenv). }
  split; [done|]. unfold Loop.tick. rewrite Hm. simpl.
  unfold Loop.on_idle, stop_camera.
  destruct (camera (self st)); [|done].
  by destruct (float_lt _ _).
Qed.

Lemma sensor_failure_is_idle_witness :
  let tenv := {|
    Loop.gpio := true;
    Loop.random_draw := true;
    Loop.gpio_input_high := Raise (Exception "GPIO not set up");
    Loop.time_motion := 50%Q;
    Loop.open_camera := Ret Camera;
    Loop.capture := Samples.capture_env (Ret Samples.frame12) Samples.cv_hit;
    Loop.cv_run := Samples.cv_hit;
    Loop.time_image := 50%Q;
    Loop.imwrite_event := fun _ _ => Ret true;
    Loop.log := Samples.log_env;
    Loop.thread_start := Ret tt;
    Loop.time_idle := 50%Q;
    Loop.close_camera := Ret tt
  |} in
  Loop.motion tenv = false /\
  (Loop.tick tenv (Samples.state (Some Camera) 45%Q)).2 = Ret tt /\
  last_motion_time (self (Loop.tick tenv (Samples.state (Some Camera) 45%Q)).1)
    = 45%Q /\
  web (Loop.tick tenv (Samples.state (Some Camera) 45%Q)).1
    = WebServer.initial /\
  db (Loop.tick tenv (Samples.state (Some Camera) 45%Q)).1 = Database.empty.
Proof.
  intros tenv.
  apply (sensor_failure_is_idle tenv (Samples.state (Some Camera) 45%Q)).
  - reflexivity.
  - exact I.
Defined.

End MotionPass.

(** ** Recording a clip *)

Section Recording.

Import PiPatrol Database.

(** X16.  [record_clip] does nothing without a camera.  With one, a
    failure to make the recordings directory leaves the function as an
    exception, a failure to start or stop the recording is swallowed, and
    in both cases nothing is logged; a completed recording is logged as
    one "motion_recorded" row with the path of the clip and no person.
    The function never changes the camera, the label mapping or the web
    server's globals. *)
Theorem record_clip_outcomes env filename st :
  (camera (self st) = None -> record_clip env filename st = (st, Ret tt)) /\
  (is_Some (camera (self st)) ->
   (raises (mkdir_RECORDINGS_DIR env) ->
    (record_clip env filename st).1 = st /\
    raises (record_clip env filename st).2) /\
   (returns (mkdir_RECORDINGS_DIR env) ->
    raises (start_recording env (recordings_path filename)) \/
      raises (stop_recording env) ->
    record_clip env filename st = (st, Ret tt)) /\
   (returns (mkdir_RECORDINGS_DIR env) ->
    returns (start_recording env (recordings_path filename)) ->
    returns (stop_recording env) ->
    record_clip env filename st
      = (set_db (log_event (clip_log env) "motion_recorded"
                   (Some (recordings_path filename)) None (db st)) st,
         Ret tt) /\
    (returns (connect (clip_log env)) -> returns (commit (clip_log env)) ->
     next_rowid (db st) <= MAX_ROWID ->
     rows (db (record_clip env filename st).1)
       = rows (db st)
         ++ [{| id := next_rowid (db st);
                timestamp := strftime_now (clip_log env);
                event_type := "motion_recorded";
                file_path := Some (recordings_path filename);
                person_name := None |}]))) /\
  self (record_clip env filename st).1 = self st /\
  web (record_clip env filename st).1 = web st.
Proof.
  unfold record_clip, record_clip_path.
  split; [by intros ->|]. split.
  - intros [cam ->]. split; [|split].
    + by destruct (mkdir_RECORDINGS_DIR env).
    + intros Hmk Hfail. destruct (mkdir_RECORDINGS_DIR env) as [[]|e]; [|done].
      simpl. destruct (start_recording env _) as [[]|e]; simpl; [|done].
      destruct (stop_recording env) as [[]|e]; simpl; [|done].
      by destruct Hfail.
    + intros Hmk Hstart Hstop.
      destruct (mkdir_RECORDINGS_DIR env) as [[]|e]; [|done]. simpl.
      destruct (start_recording env _) as [[]|e]; [|done]. simpl.
      destruct (stop_recording env) as [[]|e]; [|done]. simpl.
      split; [done|]. intros Hc Hm Hle.
      by rewrite (log_event_done _ _ _ _ (db st) Hc Hm Hle).
  - destruct (camera (self st)); [|done].
    destruct (mkdir_RECORDINGS_DIR env) as [[]|e]; [|done]. simpl.
    destruct (start_recording env _) as [[]|e]; simpl; [|done].
    by destruct (stop_recording env) as [[]|e].
Qed.

Lemma record_clip_outcomes_witness :
  record_clip MoreSamples.clip_env "record_1000.mp4" (Samples.state None 0%Q)
    = (Samples.state None 0%Q, Ret tt) /\
  rows (db (record_clip MoreSamples.clip_env "record_1000.mp4"
              (Samples.state (Some Camera) 0%Q)).1)
    = [{| id := 1; timestamp := "2024-01-01 12:00:00";
          event_type := "motion_recorded";
          file_path :=
            Some "/home/pi/Security/pi_patrol/recordings/record_1000.mp4";
          person_name := None |}].
Proof.
  split.
  - apply (proj1 (record_clip_outcomes MoreSamples.clip_env "record_1000.mp4"
                    (Samples.state None 0%Q))).
    reflexivity.
  - pose proof (record_clip_outcomes MoreSamples.clip_env "record_1000.mp4"
                  (Samples.state (Some Camera) 0%Q)) as (_ & H & _).
    assert (Hc : is_Some (camera (self (Samples.state (Some Camera) 0%Q))))
      by (by eexists).
    destruct (H Hc) as (_ & _ & Hdone).
    destruct (Hdone I I I) as (_ & Hrows).
    apply Hrows; [exact I | exact I | by vm_compute].
Defined.

End Recording.

(** ** A captured frame *)

Section CapturedFrame.

Import LBPHRecognizer PiPatrol.

(** X17.  [capture_frame] returns a frame only when the camera is set and
    every call of the path returned: the frame is the camera image,
    converted, with the detections drawn into it, and it is the frame the
    web server then holds as current frame; the call leaves the camera,
    [last_motion_time], the label mapping and the event store as they
    are. *)
Theorem capture_frame_some env st frame :
  (capture_frame env st).2 = Ret (Some frame) ->
  is_Some (camera (self st)) /\
  (exists shot converted detections,
     capture_array env = Ret shot /\
     cvtColor_RGB2BGR env shot = Ret converted /\
     recognize_faces (cv env) (labels (self st)) converted = Ret detections /\
     annotate env converted detections = Ret frame /\
     returns (mkdir_EVENTS_DIR env) /\
     returns (imwrite_live_path env frame) /\
     returns (WebServer.set_frame (publish env) frame None (web st)).2) /\
  WebServer.current_frame (web (capture_frame env st).1) = Some frame /\
  self (capture_frame env st).1 = self st /\
  db (capture_frame env st).1 = db st.
Proof.
  intros H.
  pose proof (capture_frame_published env st frame H) as [_ Hcur].
  pose proof (capture_frame_self env st) as [Hself Hdb].
  split; [|split; [|done]].
  - unfold capture_frame in H. by destruct (camera (self st)).
  - unfold capture_frame, capture_try in H.
    destruct (camera (self st)); [|done].
    destruct (grab_and_annotate env st) as [frame'|e] eqn:Hg; [|done].
    destruct (WebServer.set_frame (publish env) frame' None (web st))
      as [g r] eqn:Hs.
    simpl in H. destruct r as [[]|e]; simpl in H; [|done].
    injection H as <-.
    unfold grab_and_annotate in Hg.
    apply bind_Ret in Hg as (shot & Hshot & Hg).
    apply bind_Ret in Hg as (converted & Hconv & Hg).
    apply bind_Ret in Hg as (detections & Hrec & Hg).
    apply bind_Ret in Hg as (annotated & Hann & Hg).
    apply bind_Ret in Hg as ([] & Hmk & Hg).
    apply bind_Ret in Hg as (b & Hw & Hg).
    injection Hg as ->.
    exists shot, converted, detections.
    rewrite Hmk, Hw, Hs. by repeat (split; [done|]).
Qed.

Lemma capture_frame_some_witness :
  is_Some (camera (self (Samples.state (Some Camera) 0%Q))) /\
  WebServer.current_frame
    (web (capture_frame
            (Samples.capture_env (Ret Samples.frame12) Samples.cv_hit)
            (Samples.state (Some Camera) 0%Q)).1) = Some Samples.frame12.
Proof.
  pose proof (capture_frame_some
    (Samples.capture_env (Ret Samples.frame12) Samples.cv_hit)
    (Samples.state (Some Camera) 0%Q) Samples.frame12 eq_refl)
    as (H1 & _ & H2 & _).
  split; [exact H1 | exact H2].
Defined.

End CapturedFrame.

(** ** The event store is append-only *)

Section AppendOnly.

Import PiPatrol Database.

Lemma log_event_appends env ty path person t :
  exists suffix,
    rows (log_event env ty path person t) = rows t ++ suffix /\
    (length suffix <= 1)%nat /\
    Forall (fun e => high t < id e <= MAX_ROWID) suffix /\
    high t <= high (log_event env ty path person t).
Proof.
  destruct (log_event_rows env ty path person t) as [-> | [Hrows Hle]].
  - exists []. rewrite app_nil_r. split; [done|]. split; [simpl; lia|].
    split; [constructor | lia].
  - eexists. split; [exact Hrows|]. split; [simpl; lia|]. split.
    + repeat constructor; simpl; unfold next_rowid in *; lia.
    + destruct (log_event_extends env ty path person t) as (? & _ & _ & _ & H).
      exact H.
Qed.

Lemma log_events_appends calls t :
  exists suffix,
    rows (log_events calls t) = rows t ++ suffix /\
    (length suffix <= length calls)%nat /\
    Forall (fun e => high t < id e <= MAX_ROWID) suffix /\
    high t <= high (log_events calls t).
Proof.
  revert t. induction calls as [|c calls IH]; intros t; simpl.
  - exists []. rewrite app_nil_r. split; [done|]. split; [simpl; lia|].
    split; [constructor | lia].
  - destruct (log_event_appends (call_env c) (call_event_type c)
                (call_file_path c) (call_person c) t)
      as (s1 & Hr1 & Hn1 & Hf1 & Hh1).
    destruct (IH (log_event (call_env c) (call_event_type c)
                    (call_file_path c) (call_person c) t))
      as (s2 & Hr2 & Hn2 & Hf2 & Hh2).
    exists (s1 ++ s2). unfold log_events in *. rewrite Hr2, Hr1, app_assoc.
    split; [done|]. split; [rewrite length_app; lia|].
    split; [|lia]. apply Forall_app. split; [done|].
    eapply Forall_impl; [exact Hf2|]. simpl. intros e He. lia.
Qed.

(** X18.  The event store is append-only under [log_event]: after any
    series of calls the earlier rows are all still there, unchanged and in
    place, followed by at most one new row per call; every new id lies
    above every id the table held before and within the rowid range, and
    in a table whose ids were increasing no two rows share an id. *)
Theorem event_store_append_only calls t :
  exists suffix,
    rows (log_events calls t) = rows t ++ suffix /\
    (length suffix <= length calls)%nat /\
    Forall (fun e => high t < id e <= MAX_ROWID) suffix /\
    (forall i e, rows t !! i = Some e ->
                 rows (log_events calls t) !! i = Some e) /\
    (StronglySorted Z.lt (ids t) -> NoDup (ids (log_events calls t))).
Proof.
  destruct (log_events_appends calls t) as (suffix & Hr & Hn & Hf & _).
  exists suffix. split; [done|]. split; [done|]. split; [done|]. split.
  - intros i e He. rewrite Hr. by apply lookup_app_l_Some.
  - intros Hs.
    assert (Hs' : StronglySorted Z.lt (ids (log_events calls t))).
    { eapply extends_sorted; [apply log_events_extends | done]. }
    clear -Hs'. induction Hs' as [|x l _ IH Hx]; constructor; [|done].
    intros Hin. rewrite Forall_forall in Hx. specialize (Hx x Hin). lia.
Qed.

Lemma event_store_append_only_witness :
  NoDup (ids (log_events
                [{| call_env := Samples.log_env;
                    call_event_type := "motion_recorded";
                    call_file_path := None;
                    call_person := None |}]
                Database.empty)).
Proof.
  destruct (event_store_append_only
              [{| call_env := Samples.log_env;
                  call_event_type := "motion_recorded";
                  call_file_path := None;
                  call_person := None |}]
              Database.empty) as (suffix & _ & _ & _ & _ & H).
  apply H. constructor.
Defined.

End AppendOnly.

(** ** The rate of the stream *)

Section StreamFacts.

Import WebServer.

Lemma stream_iteration_cases g now last :
  (exists data,
     stream_iteration g now last = (Yield data, now) /\
     live_preview_enabled g = true /\
     (frame_interval <= float_sub now last)%Q /\
     truthy_bytes (encoded_jpeg g) = true /\
     data = chunk (default EmptyString (encoded_jpeg g))) \/
  (exists seconds, stream_iteration g now last = (Sleep seconds, last)).
Proof.
  unfold stream_iteration.
  destruct (live_preview_enabled g); simpl; [|right; by eexists].
  destruct (float_lt (float_sub now last) frame_interval) eqn:Hlt;
    [right; by eexists|].
  apply float_lt_false in Hlt.
  destruct (truthy_bytes (encoded_jpeg g)) eqn:Ht; [|right; by eexists].
  left. by eexists.
Qed.

(** X19.  The generator keeps to its rate: a chunk is only yielded when
    the difference it computes between the clock and the time of the last
    chunk reaches [frame_interval], the double nearest to 1/15.  So when
    the differences between the clock readings (and the time of the last
    send) are computed without rounding error, over any series of
    iterations whose clock readings do not exceed [tmax], a generator that
    last sent at [last] yields no more chunks than [frame_interval] fits
    into [tmax - last]. *)
Theorem stream_rate_cap (last tmax : float) (reads : list (Globals * float)) :
  (last <= tmax)%Q ->
  Forall (fun r : Globals * float => (r.2 <= tmax)%Q) reads ->
  Forall (fun r : Globals * float =>
            Forall (fun t : float => (float_sub r.2 t == r.2 - t)%Q)
                   (last :: map snd reads)) reads ->
  (inject_Z (Z.of_nat (length (stream_from last reads))) * frame_interval
     <= tmax - last)%Q.
Proof.
  intros Hlast Hall Hex. revert last Hlast Hex.
  induction Hall as [|[g now] reads Hnow _ IH]; intros last Hlast Hex; simpl.
  - unfold float in *. change (inject_Z (Z.of_nat 0)) with 0%Q. lra.
  - simpl in Hnow. simpl in Hex.
    apply Forall_cons in Hex as [Hhd Htl].
    apply Forall_cons in Hhd as [Hsub _]. simpl in Hsub.
    destruct (stream_iteration_cases g now last)
      as [(data & -> & _ & Hgap & _)|(seconds & ->)].
    + simpl length. rewrite Nat2Z.inj_succ, <- Z.add_1_r, inject_Z_plus.
      assert (Hrest : Forall (fun r : Globals * float =>
                Forall (fun t : float => (float_sub r.2 t == r.2 - t)%Q)
                       (now :: map snd reads)) reads).
      { eapply Forall_impl; [exact Htl|]. intros r Hr. simpl in Hr.
        by apply Forall_cons in Hr as [_ Hr]. }
      specialize (IH now Hnow Hrest). change (inject_Z 1) with 1%Q.
      unfold float in *. rewrite Hsub in Hgap.
      set (n := inject_Z (Z.of_nat (length (stream_from now reads)))) in *.
      set (i := frame_interval) in *. clearbody n i.
      lra.
    + apply IH; [done|].
      eapply Forall_impl; [exact Htl|]. intros r Hr. simpl in Hr.
      apply Forall_cons in Hr as [H1 Hr].
      apply Forall_cons in Hr as [_ Hr]. by apply Forall_cons.
Qed.

Lemma stream_rate_cap_witness :
  stream_from 0%Q
    [(MoreSamples.streaming, frame_interval);
     (MoreSamples.streaming, (2 * frame_interval)%Q)]
  = [chunk "JPEG"; chunk "JPEG"] /\
  (inject_Z (Z.of_nat (length
     (stream_from 0%Q
        [(MoreSamples.streaming, frame_interval);
         (MoreSamples.streaming, (2 * frame_interval)%Q)])))
   * frame_interval <= 2 * frame_interval - 0)%Q.
Proof.
  split; [by vm_compute|].
  apply (stream_rate_cap 0%Q (2 * frame_interval)%Q
           [(MoreSamples.streaming, frame_interval);
            (MoreSamples.streaming, (2 * frame_interval)%Q)]).
  - by vm_compute.
  - repeat constructor; by vm_compute.
  - repeat constructor; by vm_compute.
Defined.

(** X20.  With the preview enabled and the interval passed, the iteration
    after a [set_frame] whose encoding succeeded yields the chunk of that
    very frame and records the clock as time of the last send; after a
    [set_frame] whose encoding failed or raised, the iteration does what
    it would have done before the call, so the stream keeps to the last
    frame that could be encoded. *)
Theorem stream_serves_latest env frame label g now last :
  (forall buf,
     imencode env frame = Ret (true, buf) ->
     buf <> EmptyString ->
     live_preview_enabled g = true ->
     (frame_interval <= now - last)%Q ->
     stream_iteration (set_frame env frame label g).1 now last
       = (Yield (chunk buf), now)) /\
  (raises (imencode env frame) \/
   (exists buf, imencode env frame = Ret (false, buf)) ->
   stream_iteration (set_frame env frame label g).1 now last
     = stream_iteration g now last).
Proof.
  split.
  - intros buf Hi Hbuf Hflag Hgap. unfold set_frame, stream_iteration.
    rewrite Hi. simpl. rewrite Hflag. simpl.
    apply frame_interval_reached, float_lt_false in Hgap. rewrite Hgap.
    by destruct buf.
  - intros H. unfold set_frame, stream_iteration.
    destruct (imencode env frame) as [[[] buf]|e]; simpl; [|done|done].
    by destruct H as [[]|(buf' & [=])].
Qed.

Lemma stream_serves_latest_witness :
  stream_iteration
    (set_frame Samples.set_frame_env Samples.frame12 None
       MoreSamples.previewing).1 1%Q 0%Q
  = (Yield (chunk "JPEG"), 1%Q).
Proof.
  apply (stream_serves_latest Samples.set_frame_env Samples.frame12 None
           MoreSamples.previewing 1%Q 0%Q).
  - reflexivity.
  - discriminate.
  - reflexivity.
  - by vm_compute.
Defined.

(** X21.  [toggle_preview] stores the truth value of the request's
    [enable] and answers with what it stored; a request without [enable]
    disables the preview and any non-empty string enables it; nothing else
    in the globals changes, and the outcome does not depend on the flag
    that was stored before. *)
Theorem toggle_preview_stores data data' g :
  (toggle_preview data g).2 = live_preview_enabled (toggle_preview data g).1 /\
  status (toggle_preview data g).1
    = (current_label g, (toggle_preview data g).2, last_frame_time g) /\
  current_frame (toggle_preview data g).1 = current_frame g /\
  encoded_jpeg (toggle_preview data g).1 = encoded_jpeg g /\
  (data !! "enable" = None -> (toggle_preview data g).2 = false) /\
  (forall s, data !! "enable" = Some (JString s) -> s <> EmptyString ->
             (toggle_preview data g).2 = true) /\
  toggle_preview data' (toggle_preview data g).1 = toggle_preview data' g.
Proof.
  unfold toggle_preview, status. simpl.
  repeat (split; [done|]). split; [by intros ->|].
  split; [|done]. intros s -> Hs. simpl. by destruct s.
Qed.

Lemma toggle_preview_stores_witness :
  (toggle_preview {[ "enable" := JString "false" ]} initial).2 = true /\
  (toggle_preview ∅ MoreSamples.previewing).2 = false.
Proof.
  split.
  - apply (toggle_preview_stores {[ "enable" := JString "false" ]} ∅ initial)
      with "false"; [reflexivity | discriminate].
  - apply (toggle_preview_stores ∅ ∅ MoreSamples.previewing). reflexivity.
Defined.

End StreamFacts.

(** ** Enrolled files *)

Section EnrolledFiles.

Import WebServer.

Lemma enroll_face_success_inv env name g c filename :
  (enroll_face env name g c).2 = Ret (success filename, 200%nat) ->
  exists n frame,
    name = Some n /\ n <> EmptyString /\
    frame_source env g = Ret (Some frame) /\
    filename = n +:+ strftime_now env +:+ ".jpg" /\
    faces_files (enroll_face env name g c).1
      = <[face_path filename := frame]> (faces_files c).
Proof.
  unfold enroll_face. destruct name as [[|a n]|]; [done| |done].
  destruct (mkdir_FACES_DIR env) as [[]|e]; [|done].
  destruct (frame_source env g) as [[frame|]|e]; [|done|done].
  destruct (imwrite_face env _ frame) as [[]|e]; [|done|done].
  simpl. intros [= <-]. by exists (String a n), frame.
Qed.

(** X22.  A successful enrolment is one for a non-empty name with a frame
    at hand; its file name is the name, the timestamp and ".jpg", and the
    frame saved is the current frame when there is one.  Two successful
    enrolments of one name within the same second of the clock therefore
    write the same file: the second replaces the frame of the first and the
    corpus holds no more files than after the first. *)
Theorem enroll_face_same_name env1 env2 name g1 g2 c fn1 fn2 :
  let r1 := enroll_face env1 name g1 c in
  let r2 := enroll_face env2 name g2 r1.1 in
  r1.2 = Ret (success fn1, 200%nat) ->
  r2.2 = Ret (success fn2, 200%nat) ->
  strftime_now env1 = strftime_now env2 ->
  fn1 = fn2 /\
  (exists n, name = Some n /\ n <> EmptyString /\
             fn1 = n +:+ strftime_now env1 +:+ ".jpg") /\
  (exists frame2,
     frame_source env2 g2 = Ret (Some frame2) /\
     faces_files r2.1 = <[face_path fn1 := frame2]> (faces_files c)) /\
  dom (faces_files r2.1) = dom (faces_files r1.1).
Proof.
  intros r1 r2 H1 H2 Hstamp.
  apply enroll_face_success_inv in H1
    as (n1 & frame1 & Hn1 & Hne1 & Hsrc1 & Hfn1 & Hfiles1).
  apply enroll_face_success_inv in H2
    as (n2 & frame2 & Hn2 & Hne2 & Hsrc2 & Hfn2 & Hfiles2).
  assert (n1 = n2) by congruence. subst n2.
  assert (Hfn : fn1 = fn2) by (rewrite Hfn1, Hfn2; by rewrite Hstamp).
  subst fn2. split; [done|]. split; [by exists n1|].
  fold r1 in Hfiles1, Hfiles2 |- *. fold r2 in Hfiles2 |- *.
  rewrite <- Hfn in Hfiles2.
  split.
  - exists frame2. split; [done|].
    by rewrite Hfiles2, Hfiles1, insert_insert_eq.
  - rewrite Hfiles2, Hfiles1, insert_insert_eq.
    by rewrite !dom_insert_L.
Qed.

Lemma enroll_face_same_name_witness :
  let r1 := enroll_face (Samples.enroll_env None) (Some "alice")
              (Samples.globals_with Samples.frame12) Samples.no_corpus in
  let r2 := enroll_face (Samples.enroll_env None) (Some "alice")
              (Samples.globals_with Samples.frame11) r1.1 in
  "alice20240101120000.jpg" = "alice20240101120000.jpg" /\
  (exists n, Some "alice" = Some n /\ n <> EmptyString /\
             "alice20240101120000.jpg"
             = n +:+ strftime_now (Samples.enroll_env None) +:+ ".jpg") /\
  (exists frame2,
     frame_source (Samples.enroll_env None)
       (Samples.globals_with Samples.frame11) = Ret (Some frame2) /\
     faces_files r2.1
       = <[ face_path "alice20240101120000.jpg" := frame2 ]>
           (faces_files Samples.no_corpus)) /\
  dom (faces_files r2.1) = dom (faces_files r1.1).
Proof.
  intros r1 r2.
  apply (enroll_face_same_name (Samples.enroll_env None)
           (Samples.enroll_env None) (Some "alice")
           (Samples.globals_with Samples.frame12)
           (Samples.globals_with Samples.frame11) Samples.no_corpus);
    reflexivity.
Defined.

End EnrolledFiles.

(** ** The dashboard's list of events *)

Section DashboardFacts.

Import Database Dashboard.

#[local] Existing Instance id_desc_total.
#[local] Existing Instance id_desc_trans.

Lemma StronglySorted_take {A} (R : relation A) (n : nat) (l : list A) :
  StronglySorted R l -> StronglySorted R (take n l).
Proof.
  intros H. rewrite <- (take_drop n l) in H.
  by apply StronglySorted_app in H as (_ & ? & _).
Qed.

(** X23.  [get_events] returns at most 50 entries, each the id,
    timestamp, type and path of a row of the table, ordered by
    non-increasing id; it returns all the rows when there are at most 50;
    and in a table whose ids increase in insertion order it returns the
    last 50 rows inserted, newest first. *)
Theorem get_events_newest_first (t : Table) :
  (length (get_events t) <= 50)%nat /\
  (forall entry, entry ∈ get_events t ->
     exists e, e ∈ rows t /\
               entry = (id e, timestamp e, event_type e, file_path e)) /\
  StronglySorted (fun a b => b.1.1.1 <= a.1.1.1) (get_events t) /\
  ((length (rows t) <= 50)%nat ->
   length (get_events t) = length (rows t)) /\
  (StronglySorted Z.lt (ids t) ->
   get_events t
   = map (fun r => (id r, timestamp r, event_type r, file_path r))
       (take 50 (reverse (rows t)))).
Proof.
  unfold get_events. rewrite map_as_fmap.
  split; [rewrite length_fmap, length_take; lia|]. split.
  { intros entry Hin. apply list_elem_of_fmap in Hin as (e & -> & He).
    exists e. split; [|done].
    apply elem_of_take in He as (i & He & _).
    apply list_elem_of_lookup_2 in He.
    by rewrite merge_sort_Permutation in He. }
  split.
  { apply (StronglySorted_fmap _ id_desc); [by intros x y|].
    apply StronglySorted_take, StronglySorted_merge_sort; apply _. }
  split.
  { intros Hlen. rewrite length_fmap, length_take.
    assert (Hp : length (merge_sort id_desc (rows t)) = length (rows t)).
    { apply Permutation_length, merge_sort_Permutation. }
    lia. }
  intros Hs. rewrite (order_by_id_desc t Hs). symmetry. apply map_as_fmap.
Qed.

Lemma get_events_newest_first_witness :
  let t := PiPatrol.log_events
             [{| PiPatrol.call_env := Samples.log_env;
                 PiPatrol.call_event_type := "motion_detected";
                 PiPatrol.call_file_path := Some "a.jpg";
                 PiPatrol.call_person := Some "alice" |};
              {| PiPatrol.call_env := Samples.log_env;
                 PiPatrol.call_event_type := "motion_recorded";
                 PiPatrol.call_file_path := Some "b.mp4";
                 PiPatrol.call_person := None |}]
             Database.empty in
  get_events t
  = [(2, "2024-01-01 12:00:00", "motion_recorded", Some "b.mp4");
     (1, "2024-01-01 12:00:00", "motion_detected", Some "a.jpg")].
Proof.
  intros t.
  destruct (get_events_newest_first t) as (_ & _ & _ & _ & H).
  rewrite H; [reflexivity|]. by repeat constructor.
Defined.

End DashboardFacts.

(** ** The gas sensor monitor *)

Section GasSensor.

Import MqSensor.

Lemma alerts_app outs1 outs2 :
  alerts (outs1 ++ outs2) = (alerts outs1 + alerts outs2)%nat.
Proof. unfold alerts. by rewrite List.filter_app, length_app. Qed.

Lemma clears_app outs1 outs2 :
  clears (outs1 ++ outs2) = (clears outs1 + clears outs2)%nat.
Proof. unfold clears. by rewrite List.filter_app, length_app. Qed.

(** X24.  The monitor prints its alert message once per episode of gas:
    starting without an alert, the number of alert messages equals the
    number of readings that show gas right after a clean reading (or at
    the start); alerts and clearing lines alternate, so there is one more
    alert than clearing lines exactly while an alert is on; and the alert
    is on at the end exactly when the last reading shows gas. *)
Theorem alert_once_per_episode (is_alerting : bool) (readings : list bool) :
  alerts (loop is_alerting readings).2 = gas_onsets is_alerting readings /\
  (alerts (loop is_alerting readings).2 + (if is_alerting then 1 else 0)
   = clears (loop is_alerting readings).2
     + (if (loop is_alerting readings).1 then 1 else 0))%nat /\
  (loop is_alerting readings).1
    = default is_alerting
        ((fun v => Bool.eqb v GAS_DETECTED_STATE) <$> last readings).
Proof.
  revert is_alerting. induction readings as [|v readings IH];
    intros is_alerting; simpl.
  - split; [done|]. split; [lia | done].
  - destruct (IH (Bool.eqb v GAS_DETECTED_STATE)) as (IH1 & IH2 & IH3).
    assert (Hstep : (step is_alerting v).1 = Bool.eqb v GAS_DETECTED_STATE).
    { unfold step. destruct v, is_alerting; reflexivity. }
    destruct (step is_alerting v) as [b out] eqn:Hs. simpl in Hstep. subst b.
    destruct (loop (Bool.eqb v GAS_DETECTED_STATE) readings)
      as [final outs] eqn:Hl.
    simpl in *. rewrite alerts_app, clears_app, IH1.
    assert (Hout : alerts out
                   = (if Bool.eqb v GAS_DETECTED_STATE && negb is_alerting
                      then 1 else 0)%nat /\
                   clears out
                   = (if negb (Bool.eqb v GAS_DETECTED_STATE) && is_alerting
                      then 1 else 0)%nat).
    { unfold step in Hs. destruct v, is_alerting; simpl in Hs;
        injection Hs as <-; by split. }
    destruct Hout as [-> Hc]. rewrite Hc. split; [done|]. split.
    + rewrite IH1 in IH2. destruct v, is_alerting, final; simpl in *; lia.
    + rewrite IH3. destruct readings as [|v' readings']; [done|].
      simpl.
      assert (Hlast : is_Some (last (v' :: readings')))
        by (by apply last_is_Some).
      destruct Hlast as [x Hx]. by rewrite Hx.
Qed.

End GasSensor.
